(** * MemoryCache: a TTL cache over a concurrent map, with a background sweeper

    A shallow embedding of [cache.go] (package [cache]) and the proofs of its
    specification.  The file has three layers:

    - [GoTime]: what the cache uses of package [time], durations and the
      difference [Time.Sub] of two readings of the clock;
    - the cache itself ([Set], [Get], [Delete], [Clear], [cleanup],
      [StopCleanup]) as programs of a small state-and-panic monad over the Go
      heap and the receiver [c];
    - the goroutine started by [NewCache], as a labelled transition system whose
      labels are the calls of the foreground, the firings of the ticker and the
      steps of [startCleanupRoutine]. *)

From stdpp Require Import gmap strings list fin_maps.
From Stdlib Require Import ZArith Lia.

Local Open Scope Z_scope.

(** ** Package [time] *)

Module GoTime.

(** [time.Duration] is an [int64] count of nanoseconds. *)
Definition Duration := Z.
Definition minDuration : Duration := - 2 ^ 63.
Definition maxDuration : Duration := 2 ^ 63 - 1.

(** A reading of the clock by [time.Now()], as nanoseconds since a fixed
    origin. *)
Definition Time := Z.

(** [t.Sub(u)]: the duration [t - u]; when it does not fit a [Duration] the
    result is [minDuration] or [maxDuration]. *)
Definition Sub (t u : Time) : Duration :=
  if t - u <? minDuration then minDuration
  else if maxDuration <? t - u then maxDuration
  else t - u.

End GoTime.

Import GoTime.

(** ** The cache *)

(** A pointer [*CachedItem[V]] is the index of its cell in the heap. *)
Abbreviation loc := nat.

(** A [chan struct{}] on which nothing is ever sent: it is nil, made, or
    closed. *)
Inductive chan := chan_nil | chan_open | chan_closed.

Global Instance chan_eq_dec : EqDecision chan.
Proof. solve_decision. Defined.

(** Where the goroutine running [startCleanupRoutine] stands:
    - [Spawned]: started by [go], nothing of its body run yet;
    - [AtSelect]: the ticker exists and the [select] is about to be evaluated;
    - [Parked]: blocked in the [select], neither channel being ready;
    - [GotTick]: the case [<-ticker.C] was taken, [c.cleanup()] is next;
    - [Stopped]: the case [<-c.stopCleanup] was taken: it returns. *)
Inductive goroutine := Spawned | AtSelect | Parked | GotTick | Stopped.

Global Instance goroutine_eq_dec : EqDecision goroutine.
Proof. solve_decision. Defined.

Section cache.

(** [T hashable] is any type with a decidable equality that can be hashed;
    [V any] is any type, whose zero value is [zero]. *)
Context {K : Type} `{Countable K}.
Context {V : Type} `{Inhabited V}.

Definition zero : V := inhabitant.

(** [type CachedItem[V any] struct { Value V; CreatedTime time.Time }] *)
Record CachedItem := mkItem { Value : V; CreatedTime : Time }.

(** [type Cache[T, V] struct { cache; ttl; stopCleanup }]: the field [cache]
    holds the contents of the [haxmap.Map] it points to. *)
Record Cache := mkCache {
  cache : gmap K loc;
  ttl : Duration;
  stopCleanup : chan
}.

(** What a method of [c] can read and write: the cells allocated for cached
    items, and the receiver. Cells are never freed. *)
Record World := mkWorld {
  heap : list CachedItem;
  self : Cache
}.

Definition with_cache (f : gmap K loc → gmap K loc) (w : World) : World :=
  {| heap := heap w;
     self := {| cache := f (cache (self w));
                ttl := ttl (self w);
                stopCleanup := stopCleanup (self w) |} |}.

Definition with_chan (ch : chan) (w : World) : World :=
  {| heap := heap w;
     self := {| cache := cache (self w);
                ttl := ttl (self w);
                stopCleanup := ch |} |}.

Definition with_heap (h : list CachedItem) (w : World) : World :=
  {| heap := h; self := self w |}.

(** *** Programs: state passing, with panics *)

Inductive result (A : Type) :=
| Ok (a : A) (w : World)
| Panic (msg : string).
Global Arguments Ok {A} a w.
Global Arguments Panic {A} msg.

Definition M (A : Type) : Type := World → result A.

Definition ret {A} (a : A) : M A := λ w, Ok a w.

Definition bind {A B} (m : M A) (k : A → M B) : M B :=
  λ w, match m w with
       | Ok a w' => k a w'
       | Panic msg => Panic msg
       end.

End cache.

Global Arguments CachedItem : clear implicits.
Global Arguments Cache K {_ _}.
Global Arguments World K {_ _} V.
Global Arguments result K {_ _} V A.
Global Arguments M K {_ _} V A.

Declare Scope go_scope.
Delimit Scope go_scope with go.
Notation "'do' x <- m ; k" := (bind m (λ x, k))
  (at level 10, x name, m at level 100, k at level 200,
   format "'[v' 'do'  x  <-  m ; '/' k ']'") : go_scope.
Notation "m ;; k" := (bind m (λ _, k))
  (at level 100, k at level 200, right associativity) : go_scope.

Section methods.

Context {K : Type} `{Countable K}.
Context {V : Type} `{Inhabited V}.

Local Abbreviation M := (M K V).
Local Abbreviation World := (World K V).
Local Abbreviation CachedItem := (CachedItem V).
Local Open Scope go_scope.

(** *** The Go heap *)

(** [&CachedItem[V]{...}]: a new cell, distinct from every cell in use. *)
Definition new_item (it : CachedItem) : M loc :=
  λ w, Ok (length (heap w)) (with_heap (heap w ++ [it]) w).

(** [*p], behind every field selection [p.Value], [p.CreatedTime]. *)
Definition load (p : loc) : M CachedItem :=
  λ w, match heap w !! p with
       | Some it => Ok it w
       | None =>
           Panic
             "runtime error: invalid memory address or nil pointer dereference"
       end.

(** [close(ch)] on the channel of the receiver. *)
Definition close_stopCleanup : M unit :=
  λ w, match stopCleanup (self w) with
       | chan_open => Ok tt (with_chan chan_closed w)
       | chan_closed => Panic "close of closed channel"
       | chan_nil => Panic "close of nil channel"
       end.

Definition read_ttl : M Duration := λ w, Ok (ttl (self w)) w.

(** *** The store behind [c.cache] *)

(** Modelled from the spec: the concurrent map [haxmap.Map] is a dependency
    of the repository (github.com/alphadose/haxmap), not part of it.  Its
    four operations follow the contract of the ConcurrentStore: [upsert]
    replaces or inserts. *)
Definition hax_Set (key : K) (value : loc) : M unit :=
  λ w, Ok tt (with_cache (<[key := value]>) w).

(** Modelled from the spec: [lookup] of the ConcurrentStore, the entry and
    whether it is present. *)
Definition hax_Get (key : K) : M (option loc) :=
  λ w, Ok (cache (self w) !! key) w.

(** Modelled from the spec: [remove] of the ConcurrentStore, which does
    nothing when the key is absent. *)
Definition hax_Del (key : K) : M unit :=
  λ w, Ok tt (with_cache (delete key) w).

(** Modelled from the spec: [forEach] of the ConcurrentStore, run with no
    other goroutine writing.  The traversal walks the nodes that were linked
    when it started; a node removed in the meantime (by the visitor) is
    skipped, a node still present is visited with its current value, and the
    visitor stops the traversal by returning [false]. *)
Fixpoint hax_ForEach_from (nodes : list (K * loc))
    (lambda : K → loc → M bool) : M unit :=
  match nodes with
  | [] => ret tt
  | (key, _) :: rest =>
      do cur <- hax_Get key;
      match cur with
      | None => hax_ForEach_from rest lambda
      | Some value =>
          do continue <- lambda key value;
          if continue then hax_ForEach_from rest lambda else ret tt
      end
  end.

Definition hax_ForEach (lambda : K → loc → M bool) : M unit :=
  λ w, hax_ForEach_from (map_to_list (cache (self w))) lambda w.

(** *** The methods of [Cache] *)

(** [func (c *Cache[T, V]) Set(key T, value V)] ([Set] is a sort of Rocq,
    hence the underscore); [now] is what [time.Now()] returns in the call. *)
Definition Set_ (key : K) (value : V) (now : Time) : M unit :=
  do item <- new_item {| Value := value; CreatedTime := now |};
  hax_Set key item.

(** [func (c *Cache[T, V]) Get(key T) (V, bool)] *)
Definition Get (key : K) : M (V * bool) :=
  do val <- hax_Get key;
  match val with
  | None => ret (zero, false)
  | Some item =>
      do it <- load item;
      ret (Value it, true)
  end.

(** [func (c *Cache[T, V]) Delete(key T)] *)
Definition Delete (key : K) : M unit := hax_Del key.

(** [func (c *Cache[T, V]) Clear()] *)
Definition Clear : M unit :=
  hax_ForEach (λ key _, hax_Del key ;; ret true).

(** [now.Sub(value.CreatedTime) > c.ttl] *)
Definition expired (now : Time) (d : Duration) (it : CachedItem) : bool :=
  d <? Sub now (CreatedTime it).

(** [func (c *Cache[T, V]) cleanup()]; [now] is what [time.Now()] returns on
    its first line. *)
Definition cleanup (now : Time) : M unit :=
  hax_ForEach (λ key value,
    do it <- load value;
    do d <- read_ttl;
    (if expired now d it then hax_Del key else ret tt) ;;
    ret true).

(** [func (c *Cache[T, V]) StopCleanup()] *)
Definition StopCleanup : M unit := close_stopCleanup.

(** *** The cache and its goroutine *)

(** [tickerC] is the channel [ticker.C], of capacity one: it holds a tick or
    it is empty. *)
Record System := mkSystem {
  world : World;
  sweeper : goroutine;
  tickerC : bool
}.

Definition with_world (w : World) (s : System) : System :=
  {| world := w; sweeper := sweeper s; tickerC := tickerC s |}.

Definition with_sweeper (g : goroutine) (s : System) : System :=
  {| world := world s; sweeper := g; tickerC := tickerC s |}.

Definition with_tickerC (b : bool) (s : System) : System :=
  {| world := world s; sweeper := sweeper s; tickerC := b |}.

(** [func NewCache[T hashable, V any](ttl time.Duration) *Cache[T, V]]: the
    struct is built from an empty map, [ttl] as given and a channel just
    made, and the goroutine is started. *)
Definition NewCache (ttl : Duration) : System :=
  {| world := {| heap := [];
                 self := {| cache := ∅;
                            ttl := ttl;
                            stopCleanup := chan_open |} |};
     sweeper := Spawned;
     tickerC := false |}.

(** What happens, one step at a time: a call by the foreground, the timer of
    the ticker firing, or a step of [startCleanupRoutine]. *)
Inductive event :=
| CallSet (key : K) (value : V) (now : Time)
| CallGet (key : K)
| CallDelete (key : K)
| CallClear
| CallStopCleanup
| Timer
| SwStart
| SwSelectTick
| SwSelectStop
| SwPark
| SwCleanup (now : Time).

(** A step ends in a next state, brings the program down with a panic, or
    the event cannot happen in this state. *)
Inductive outcome :=
| Next (s : System)
| Crash (msg : string)
| Disabled.

Definition call {A} (m : M A) (s : System) : outcome :=
  match m (world s) with
  | Ok _ w => Next (with_world w s)
  | Panic msg => Crash msg
  end.

(** [time.NewTicker(d)] panics unless [d] is positive. *)
Definition NewTicker (d : Duration) (s : System) : outcome :=
  if d <=? 0 then Crash "non-positive interval for NewTicker"
  else Next (with_tickerC false s).

(** [func (c *Cache[T, V]) startCleanupRoutine()], step by step.  A [select]
    with several ready cases takes any one of them ([SwSelectTick],
    [SwSelectStop]); with none it blocks ([SwPark]) until the first of the
    two channels wakes it up (see [Timer] and [CallStopCleanup] below).
    The call [c.cleanup()] is one step here ([SwCleanup]); [fine_step] below
    takes it apart. *)
Definition startCleanupRoutine (e : event) (s : System) : outcome :=
  match e, sweeper s with
  | SwStart, Spawned =>
      match NewTicker (ttl (self (world s))) s with
      | Next s' => Next (with_sweeper AtSelect s')
      | o => o
      end
  | SwSelectTick, AtSelect =>
      if tickerC s then Next (with_sweeper GotTick (with_tickerC false s))
      else Disabled
  | SwSelectStop, AtSelect =>
      if decide (stopCleanup (self (world s)) = chan_closed)
      then Next (with_sweeper Stopped s)
      else Disabled
  | SwPark, AtSelect =>
      if tickerC s then Disabled
      else if decide (stopCleanup (self (world s)) = chan_closed)
      then Disabled
      else Next (with_sweeper Parked s)
  | SwCleanup now, GotTick =>
      call (cleanup now) (with_sweeper AtSelect s)
  | _, _ => Disabled
  end.

(** The timer of the ticker fires.  A goroutine blocked in the [select]
    receives the tick at once; otherwise the tick is put in [ticker.C], or
    dropped when one is waiting there already.  Before [NewTicker] and after
    [ticker.Stop()] there is no tick. *)
Definition fire (s : System) : System :=
  match sweeper s with
  | Parked => with_sweeper GotTick s
  | AtSelect | GotTick => with_tickerC true s
  | Spawned | Stopped => s
  end.

(** Closing [c.stopCleanup] wakes a goroutine blocked in the [select], with
    the case [<-c.stopCleanup]. *)
Definition wake_on_close (s : System) : System :=
  match sweeper s with
  | Parked => with_sweeper Stopped s
  | _ => s
  end.

Definition step (e : event) (s : System) : outcome :=
  match e with
  | CallSet key value now => call (Set_ key value now) s
  | CallGet key => call (Get key) s
  | CallDelete key => call (Delete key) s
  | CallClear => call Clear s
  | CallStopCleanup =>
      match call StopCleanup s with
      | Next s' => Next (wake_on_close s')
      | o => o
      end
  | Timer => Next (fire s)
  | _ => startCleanupRoutine e s
  end.

Fixpoint run (es : list event) (s : System) : outcome :=
  match es with
  | [] => Next s
  | e :: es' =>
      match step e s with
      | Next s' => run es' s'
      | o => o
      end
  end.

(** What [c.Get(key)] returns in a state of the system. *)
Definition lookup_result (key : K) (s : System) : option (V * bool) :=
  match Get key (world s) with
  | Ok r _ => Some r
  | Panic _ => None
  end.

(** *** Vocabulary of the statements *)

(** Every pointer held by the map is a pointer to an allocated cell. *)
Definition wf (w : World) : Prop :=
  ∀ key p, cache (self w) !! key = Some p → is_Some (heap w !! p).

(** The map holds, under [key], the pointer [p] to the item [it]. *)
Definition holds (w : World) (key : K) (p : loc) (it : CachedItem) : Prop :=
  cache (self w) !! key = Some p ∧ heap w !! p = Some it.

(** The item behind [p] is older than the TTL at the reading [now]. *)
Definition stale (now : Time) (w : World) (p : loc) : bool :=
  match heap w !! p with
  | Some it => expired now (ttl (self w)) it
  | None => false
  end.

(** The states of the system that matter: the map points into the heap, the
    channel was made, and a goroutine blocked in the [select] has found the
    ticker's channel empty and [c.stopCleanup] open. *)
Definition inv (s : System) : Prop :=
  wf (world s)
  ∧ stopCleanup (self (world s)) ≠ chan_nil
  ∧ (sweeper s = Parked →
     tickerC s = false ∧ stopCleanup (self (world s)) = chan_open).

(** A call of the foreground that writes, removes or may remove [key]. *)
Definition disturbs (key : K) (e : event) : bool :=
  match e with
  | CallSet key' _ _ | CallDelete key' => bool_decide (key' = key)
  | CallClear => true
  | _ => false
  end.

(** An event that leaves alone the entry written for [key] at [created]:
    not a call that disturbs [key], and not a pass of the sweeper at a
    reading that makes the entry older than [d]. *)
Definition spares (key : K) (d : Duration) (created : Time) (e : event)
    : bool :=
  match e with
  | SwCleanup now => negb (d <? Sub now created)
  | _ => negb (disturbs key e)
  end.

(** What one visit does to the map when the visitor removes the keys whose
    pointer satisfies [c] and keeps the others. *)
Definition prune_step (c : loc → bool) (m : gmap K loc) (key : K)
    : gmap K loc :=
  match m !! key with
  | Some p => if c p then delete key m else m
  | None => m
  end.

(** The same world read with another TTL and with every item stamped [t]:
    what a reader that looked at the clock would tell apart. *)
Definition retimed (d : Duration) (t : Time) (w : World) : World :=
  {| heap := (λ it, {| Value := Value it; CreatedTime := t |}) <$> heap w;
     self := {| cache := cache (self w);
                ttl := d;
                stopCleanup := stopCleanup (self w) |} |}.

(** What an event that happens makes of the heap and of the receiver. *)
Definition world_after (e : event) (w : World) : World :=
  match e with
  | CallSet key value now =>
      with_cache (<[key := length (heap w)]>)
        (with_heap (heap w ++ [{| Value := value; CreatedTime := now |}]) w)
  | CallDelete key => with_cache (delete key) w
  | CallClear => with_cache (λ _, ∅) w
  | CallStopCleanup => with_chan chan_closed w
  | SwCleanup now => with_cache (filter (λ kp, stale now w kp.2 = false)) w
  | _ => w
  end.

Definition is_stop (e : event) : bool :=
  match e with CallStopCleanup => true | _ => false end.

Definition is_cleanup (e : event) : bool :=
  match e with SwCleanup _ => true | _ => false end.

Definition is_call (e : event) : bool :=
  match e with
  | CallSet _ _ _ | CallGet _ | CallDelete _ | CallClear | CallStopCleanup =>
      true
  | _ => false
  end.

(** *** Vocabulary of the further statements *)

(** What the map holds for [key], read through the pointer: the value and the
    creation time. *)
Definition entry_of (w : World) (key : K) : option (V * Time) :=
  match cache (self w) !! key with
  | Some p =>
      match heap w !! p with
      | Some it => Some (Value it, CreatedTime it)
      | None => None
      end
  | None => None
  end.

(** The history of one key, told without map, heap or pointers: what an event
    makes of the entry of [key] under the TTL [d].  Only the calls that name
    [key], [Clear] and the passes of the sweeper count. *)
Definition track (key : K) (d : Duration) (st : option (V * Time))
    (e : event) : option (V * Time) :=
  match e with
  | CallSet key' value now =>
      if bool_decide (key' = key) then Some (value, now) else st
  | CallDelete key' => if bool_decide (key' = key) then None else st
  | CallClear => None
  | SwCleanup now =>
      match st with
      | Some (_, created) => if d <? Sub now created then None else st
      | None => None
      end
  | _ => st
  end.

(** What [Get] answers for an entry, or for none. *)
Definition answer (st : option (V * Time)) : V * bool :=
  match st with
  | Some (value, _) => (value, true)
  | None => (zero, false)
  end.

Definition is_timer (e : event) : bool :=
  match e with Timer => true | _ => false end.

Definition is_get (e : event) : bool :=
  match e with CallGet _ => true | _ => false end.

Definition writes (key : K) (e : event) : bool :=
  match e with
  | CallSet key' _ _ => bool_decide (key' = key)
  | _ => false
  end.

(** How many events of a run satisfy [f], and the run without them. *)
Fixpoint count (f : event → bool) (es : list event) : nat :=
  match es with
  | [] => 0
  | e :: es' => (if f e then 1 else 0) + count f es'
  end.

Fixpoint without (f : event → bool) (es : list event) : list event :=
  match es with
  | [] => []
  | e :: es' => if f e then without f es' else e :: without f es'
  end.

(** The ticks delivered and not yet swept for: the one waiting in [ticker.C]
    and the one the goroutine has taken. *)
Definition pending (s : System) : nat :=
  (if tickerC s then 1 else 0)
  + (if decide (sweeper s = GotTick) then 1 else 0).

(** An event that can take an entry out of the map. *)
Definition removes (e : event) : bool :=
  match e with
  | CallDelete _ | CallClear | SwCleanup _ => true
  | _ => false
  end.

(** The value of the last [Set(key, _)] of a run, if there is one. *)
Fixpoint last_write (key : K) (es : list event) : option V :=
  match es with
  | [] => None
  | e :: es' =>
      match last_write key es' with
      | Some value => Some value
      | None =>
          match e with
          | CallSet key' value _ =>
              if bool_decide (key' = key) then Some value else None
          | _ => None
          end
      end
  end.

(** *** A pass of the sweeper, visit by visit

    In [startCleanupRoutine] above a pass is one event, so the runs of
    [step] are those in which no call lands inside a pass.  Here the pass is
    taken apart as [cleanup] and the traversal run it: the clock is read, the
    nodes are visited one at a time, the visitor tests the item it was handed
    and then, in a step of its own, deletes by key; calls and ticks may fall
    between any two of these steps. *)

(** Where the goroutine stands: outside a pass (as above); in the traversal
    of the pass that read the clock at [now]; or in the visitor of that pass,
    after [now.Sub(value.CreatedTime) > c.ttl] was found true of the item
    under [key] and before [c.cache.Del(key)]. *)
Inductive place :=
| Outside (g : goroutine)
| Sweeping (now : Time)
| Condemned (now : Time) (key : K).

Record Fine := mkFine {
  fine_world : World;
  fine_place : place;
  fine_tickerC : bool
}.

Definition fine_of (s : System) : Fine :=
  {| fine_world := world s;
     fine_place := Outside (sweeper s);
     fine_tickerC := tickerC s |}.

Definition with_place (pl : place) (f : Fine) : Fine :=
  {| fine_world := fine_world f;
     fine_place := pl;
     fine_tickerC := fine_tickerC f |}.

Definition with_fine_world (w : World) (f : Fine) : Fine :=
  {| fine_world := w;
     fine_place := fine_place f;
     fine_tickerC := fine_tickerC f |}.

(** What the callers and the timer see: a goroutine inside a pass is busy,
    as it is between taking the tick and starting the pass. *)
Definition seen (f : Fine) : System :=
  {| world := fine_world f;
     sweeper := match fine_place f with
                | Outside g => g
                | Sweeping _ | Condemned _ _ => GotTick
                end;
     tickerC := fine_tickerC f |}.

(** The events: those of [event] except the pass as a whole, and the steps of
    a pass: [now := time.Now()], the visit of the node of a key with the
    visitor's test, [c.cache.Del(key)], and the return of [ForEach].
    [Whole CallClear] is a [Clear] that no write interrupts; the visitor of
    [Clear] makes the very call [Delete] makes, so a [Clear] that runs while
    others write is the [Delete]s of the keys it visits, one event each. *)
Inductive fine_event :=
| Whole (e : event)
| PassBegin (now : Time)
| PassVisit (key : K)
| PassDel
| PassEnd.

Inductive fine_outcome :=
| FineNext (f : Fine)
| FineCrash (msg : string)
| FineDisabled.

(** The traversal may visit any key the map holds at that moment (it is only
    weakly consistent with writes made during the pass); it is handed the
    item the map holds for the key then. *)
Definition fine_step (fe : fine_event) (f : Fine) : fine_outcome :=
  match fe with
  | Whole e =>
      if is_cleanup e then FineDisabled
      else match step e (seen f) with
           | Next s' =>
               FineNext
                 {| fine_world := world s';
                    fine_place := match fine_place f with
                                  | Outside _ => Outside (sweeper s')
                                  | pl => pl
                                  end;
                    fine_tickerC := tickerC s' |}
           | Crash msg => FineCrash msg
           | Disabled => FineDisabled
           end
  | PassBegin now =>
      match fine_place f with
      | Outside GotTick => FineNext (with_place (Sweeping now) f)
      | _ => FineDisabled
      end
  | PassVisit key =>
      match fine_place f with
      | Sweeping now =>
          match cache (self (fine_world f)) !! key with
          | Some value =>
              match load value (fine_world f) with
              | Ok it _ =>
                  if expired now (ttl (self (fine_world f))) it
                  then FineNext (with_place (Condemned now key) f)
                  else FineNext f
              | Panic msg => FineCrash msg
              end
          | None => FineDisabled
          end
      | _ => FineDisabled
      end
  | PassDel =>
      match fine_place f with
      | Condemned now key =>
          match hax_Del key (fine_world f) with
          | Ok _ w => FineNext (with_place (Sweeping now) (with_fine_world w f))
          | Panic msg => FineCrash msg
          end
      | _ => FineDisabled
      end
  | PassEnd =>
      match fine_place f with
      | Sweeping _ => FineNext (with_place (Outside AtSelect) f)
      | _ => FineDisabled
      end
  end.

Fixpoint fine_run (fes : list fine_event) (f : Fine) : fine_outcome :=
  match fes with
  | [] => FineNext f
  | fe :: fes' =>
      match fine_step fe f with
      | FineNext f' => fine_run fes' f'
      | o => o
      end
  end.





(** A pass that nothing interrupts: the visits of the nodes in the order of
    the traversal, each followed by the deletion when the test succeeds. *)
Fixpoint visits (now : Time) (w : World) (nodes : list (K * loc))
    : list fine_event :=
  match nodes with
  | [] => []
  | (key, value) :: rest =>
      (if stale now w value then [PassVisit key; PassDel]
       else [PassVisit key]) ++ visits now w rest
  end.

Definition pass_alone (now : Time) (w : World) : list fine_event :=
  PassBegin now :: visits now w (map_to_list (cache (self w))) ++ [PassEnd].

(** [Delete] of each key of a list, in turn. *)
Fixpoint deletes (keys : list K) : M unit :=
  match keys with
  | [] => ret tt
  | key :: rest => Delete key ;; deletes rest
  end.

End methods.

(** ** The cache of the tests

    Keys are [int], values are [string], whose zero value is the empty
    string. *)

Definition Millisecond : Duration := 1000000.
Definition Minute : Duration := 60 * 1000 * Millisecond.

(** The state a run from [NewCache d] ends in. *)
Definition after (es : list (@event Z string)) (d : Duration)
    : @System Z _ _ string :=
  match run es (NewCache d) with
  | Next s => s
  | _ => NewCache d
  end.

(** The state a run from [NewCache d] ends in, passes taken apart. *)
Definition fine_after (fes : list (@fine_event Z string)) (d : Duration)
    : @Fine Z _ _ string :=
  match fine_run fes (fine_of (NewCache d)) with
  | FineNext f => f
  | _ => fine_of (NewCache d)
  end.

(** * Proofs *)

Section proofs.

Context {K : Type} `{Countable K}.
Context {V : Type} `{Inhabited V}.

Local Abbreviation M := (M K V).
Local Abbreviation World := (World K V).
Local Abbreviation System := (@System K _ _ V).
Local Abbreviation CachedItem := (CachedItem V).
Local Abbreviation event := (@event K V).
Local Open Scope go_scope.

Implicit Types (w : World) (s : System) (key k : K) (p : loc)
  (it : CachedItem) (now : Time) (e : event) (es : list event).

(** ** Readings of the clock *)

Lemma Sub_exact (t u : Time) :
  minDuration <= t - u <= maxDuration → Sub t u = t - u.
Proof.
  intros [Hlo Hhi]. unfold Sub.
  destruct (Z.ltb_spec (t - u) minDuration); [lia|].
  destruct (Z.ltb_spec maxDuration (t - u)); [lia|]. reflexivity.
Qed.

Lemma expired_iff now d it :
  expired now d it = true ↔ d < Sub now (CreatedTime it).
Proof. unfold expired. apply Z.ltb_lt. Qed.

Lemma not_expired_iff now d it :
  expired now d it = false ↔ Sub now (CreatedTime it) <= d.
Proof. unfold expired. rewrite Z.ltb_ge. reflexivity. Qed.

(** ** The record updates *)

Lemma with_cache_compose (f g : gmap K loc → gmap K loc) w :
  with_cache f (with_cache g w) = with_cache (f ∘ g) w.
Proof. reflexivity. Qed.

Lemma with_cache_id w : with_cache (λ m, m) w = w.
Proof. destruct w as [h [m d c]]. reflexivity. Qed.

Lemma with_cache_ext (f g : gmap K loc → gmap K loc) w :
  f (cache (self w)) = g (cache (self w)) → with_cache f w = with_cache g w.
Proof. unfold with_cache. intros ->. reflexivity. Qed.

Lemma wf_with_cache_delete w key : wf w → wf (with_cache (delete key) w).
Proof.
  intros Hwf k p. simpl. intros Hk.
  apply lookup_delete_Some in Hk as [_ Hk]. by apply (Hwf k).
Qed.

(** ** Traversals that only remove the key they visit *)

Lemma prune_step_hit c (m : gmap K loc) key p :
  m !! key = Some p → c p = true → prune_step c m key = delete key m.
Proof. unfold prune_step. by intros -> ->. Qed.

Lemma prune_step_keep c (m : gmap K loc) key p :
  m !! key = Some p → c p = false → prune_step c m key = m.
Proof. unfold prune_step. by intros -> ->. Qed.

Lemma prune_step_miss c (m : gmap K loc) key :
  m !! key = None → prune_step c m key = m.
Proof. unfold prune_step. by intros ->. Qed.

Lemma prune_step_lookup c m key k :
  prune_step c m key !! k =
    if decide (k = key)
    then p ← m !! k; if c p then None else Some p
    else m !! k.
Proof.
  unfold prune_step. case_decide as Hk.
  - subst k. destruct (m !! key) as [p|] eqn:Hm; simpl.
    + destruct (c p) eqn:Hc; [apply lookup_delete_eq | by rewrite Hm].
    + by rewrite Hm.
  - destruct (m !! key) as [p|]; [|done].
    destruct (c p); [by apply lookup_delete_ne | done].
Qed.

Lemma prune_fold_lookup c (keys : list K) m k :
  foldl (prune_step c) m keys !! k =
    if decide (k ∈ keys)
    then p ← m !! k; if c p then None else Some p
    else m !! k.
Proof.
  revert m. induction keys as [|key keys IH]; intros m; cbn [foldl].
  - destruct (decide (k ∈ [])) as [Hin|]; [by apply elem_of_nil in Hin | done].
  - rewrite IH, prune_step_lookup.
    destruct (decide (k = key)) as [->|Hne].
    + rewrite (decide_True (P := key ∈ key :: keys)) by left.
      case_decide; [|done].
      destruct (m !! key) as [p|]; simpl; [|done].
      destruct (c p) eqn:Hc; simpl; [done | by rewrite Hc].
    + destruct (decide (k ∈ keys)) as [Hin|Hnin].
      * by rewrite (decide_True (P := k ∈ key :: keys)) by by right.
      * rewrite (decide_False (P := k ∈ key :: keys)); [done|].
        intros [?|?]%elem_of_cons; done.
Qed.

Lemma prune_all_lookup c (m : gmap K loc) :
  foldl (prune_step c) m (map_to_list m).*1 =
    filter (λ kp, c kp.2 = false) m.
Proof.
  apply map_eq. intros k.
  rewrite prune_fold_lookup, map_lookup_filter.
  destruct (m !! k) as [p|] eqn:Hm; simpl.
  - rewrite decide_True.
    + destruct (c p) eqn:Hc; simpl; done.
    + apply list_elem_of_fmap. exists (k, p). split; [done|].
      by apply elem_of_map_to_list.
  - by case_decide.
Qed.

(** A traversal whose visitor removes the visited key when [c] holds of its
    pointer, touches nothing else and goes on, prunes the map. *)
Lemma hax_ForEach_from_prune (lambda : K → loc → M bool) (c : loc → bool)
    (P : World → Prop) :
  (∀ w key, P w → P (with_cache (delete key) w)) →
  (∀ w key p, P w → cache (self w) !! key = Some p →
     lambda key p w =
       Ok true (if c p then with_cache (delete key) w else w)) →
  ∀ nodes w, P w →
    hax_ForEach_from nodes lambda w =
      Ok tt (with_cache (λ m, foldl (prune_step c) m nodes.*1) w).
Proof.
  intros HP Hvisit nodes.
  induction nodes as [|[key q] nodes IH]; intros w Hw; simpl.
  - unfold ret. by rewrite with_cache_id.
  - unfold bind at 1. unfold hax_Get at 1.
    destruct (cache (self w) !! key) as [p|] eqn:Hm.
    + unfold bind. rewrite (Hvisit _ _ _ Hw Hm).
      destruct (c p) eqn:Hc.
      * rewrite IH by by apply HP. rewrite with_cache_compose.
        f_equal. apply with_cache_ext. simpl.
        by rewrite (prune_step_hit c _ _ _ Hm Hc).
      * rewrite IH by done. f_equal. apply with_cache_ext. simpl.
        by rewrite (prune_step_keep c _ _ _ Hm Hc).
    + rewrite IH by done. f_equal. apply with_cache_ext. simpl.
      by rewrite (prune_step_miss c _ _ Hm).
Qed.

Lemma hax_ForEach_prune (lambda : K → loc → M bool) (c : loc → bool)
    (P : World → Prop) w :
  (∀ w key, P w → P (with_cache (delete key) w)) →
  (∀ w key p, P w → cache (self w) !! key = Some p →
     lambda key p w =
       Ok true (if c p then with_cache (delete key) w else w)) →
  P w →
  hax_ForEach lambda w =
    Ok tt (with_cache (filter (λ kp, c kp.2 = false)) w).
Proof.
  intros HP Hvisit Hw. unfold hax_ForEach.
  rewrite (hax_ForEach_from_prune lambda c P HP Hvisit _ _ Hw).
  f_equal. apply with_cache_ext. apply prune_all_lookup.
Qed.

(** ** The methods, one by one *)

Lemma Set_unfold key (value : V) now w :
  Set_ key value now w =
    Ok tt (with_cache (<[key := length (heap w)]>)
             (with_heap (heap w ++ [mkItem value now]) w)).
Proof. reflexivity. Qed.

Lemma Get_holds w key p it :
  holds w key p it → Get key w = Ok (Value it, true) w.
Proof.
  intros [Hk Hp]. unfold Get, bind, hax_Get, load. by rewrite Hk, Hp.
Qed.

Lemma Get_absent w key :
  cache (self w) !! key = None → Get key w = Ok (zero, false) w.
Proof. intros Hk. unfold Get, bind, hax_Get. by rewrite Hk. Qed.

Lemma Delete_unfold key w : Delete key w = Ok tt (with_cache (delete key) w).
Proof. reflexivity. Qed.

Lemma Clear_unfold w : Clear w = Ok tt (with_cache (λ _, ∅) w).
Proof.
  unfold Clear.
  rewrite (hax_ForEach_prune _ (λ _, true) (λ _, True)); [|done| |done].
  - f_equal. apply with_cache_ext. apply map_eq. intros k.
    rewrite lookup_empty. apply map_lookup_filter_None. right.
    intros p _. simpl. discriminate.
  - intros w' key p _ _. reflexivity.
Qed.

Lemma cleanup_unfold now w :
  wf w →
  cleanup now w =
    Ok tt (with_cache (filter (λ kp, stale now w kp.2 = false)) w).
Proof.
  intros Hwf. unfold cleanup.
  apply (hax_ForEach_prune _ (stale now w)
           (λ w', wf w' ∧ heap w' = heap w ∧ ttl (self w') = ttl (self w))).
  - intros w' key (Hwf' & Hh & Hd). split; [|done].
    by apply wf_with_cache_delete.
  - intros w' key p (Hwf' & Hh & Hd) Hk.
    destruct (Hwf' _ _ Hk) as [it Hit].
    unfold bind, load, read_ttl, stale. rewrite Hit.
    rewrite <- Hh, Hit, <- Hd.
    by destruct (expired now (ttl (self w')) it).
  - done.
Qed.

Lemma StopCleanup_open w :
  stopCleanup (self w) = chan_open →
  StopCleanup w = Ok tt (with_chan chan_closed w).
Proof. intros Hc. unfold StopCleanup, close_stopCleanup. by rewrite Hc. Qed.

Lemma StopCleanup_closed w :
  stopCleanup (self w) = chan_closed →
  StopCleanup w = Panic "close of closed channel".
Proof. intros Hc. unfold StopCleanup, close_stopCleanup. by rewrite Hc. Qed.

(** What a pass of the sweeper does to one entry. *)
Lemma cleanup_lookup now w key :
  cache (self (with_cache (filter (λ kp, stale now w kp.2 = false)) w))
    !! key
  = p ← cache (self w) !! key; if stale now w p then None else Some p.
Proof.
  simpl. rewrite map_lookup_filter.
  destruct (cache (self w) !! key) as [p|]; simpl; [|done].
  destruct (stale now w p); simpl; done.
Qed.

Lemma stale_holds now w key p it :
  holds w key p it → stale now w p = expired now (ttl (self w)) it.
Proof. intros [_ Hp]. unfold stale. by rewrite Hp. Qed.

Lemma holds_retimed w key p it d t :
  holds w key p it →
  holds (retimed d t w) key p {| Value := Value it; CreatedTime := t |}.
Proof.
  intros [Hk Hp]. split; [done|]. simpl.
  by rewrite list_lookup_fmap, Hp.
Qed.

(** ** What the methods guarantee *)

(** C1. [Get] makes no check of age: for every key the map holds, it
    returns the stored value and [true]; and it returns the same value and
    [true] whatever the TTL of the cache and whatever the creation time
    stamped on the items, so an entry older than the TTL that no pass of the
    sweeper has removed is still found. *)
Theorem Get_no_ttl_check w key p :
  wf w →
  cache (self w) !! key = Some p →
  ∃ it, heap w !! p = Some it
    ∧ Get key w = Ok (Value it, true) w
    ∧ ∀ d t, Get key (retimed d t w) = Ok (Value it, true) (retimed d t w).
Proof.
  intros Hwf Hk. destruct (Hwf _ _ Hk) as [it Hp]. exists it.
  assert (holds w key p it) as Hh by done.
  split; [done|]. split; [by apply (Get_holds _ _ p)|].
  intros d t. apply (Get_holds _ key p (mkItem (Value it) t)).
  by apply holds_retimed.
Qed.

(** C3. The boundary of eviction is strict: a pass of the sweeper at the
    reading [now] keeps an entry whose age [now.Sub(CreatedTime)] is exactly
    the TTL, and an entry the map holds is gone after the pass if and only if
    its age is greater than the TTL. *)
Theorem cleanup_boundary_strict now w :
  wf w →
  ∃ w', cleanup now w = Ok tt w'
    ∧ ∀ key p it, holds w key p it →
        (Sub now (CreatedTime it) = ttl (self w) → holds w' key p it)
        ∧ (cache (self w') !! key = None
           ↔ ttl (self w) < Sub now (CreatedTime it)).
Proof.
  intros Hwf. eexists. split; [by apply cleanup_unfold|].
  intros key p it Hh. pose proof Hh as [Hk Hp].
  rewrite cleanup_lookup, Hk. simpl.
  rewrite (stale_holds now _ _ _ _ Hh). split.
  - intros Hage. split; [|done].
    rewrite cleanup_lookup, Hk. simpl.
    rewrite (stale_holds now _ _ _ _ Hh).
    replace (expired now (ttl (self w)) it) with false; [done|].
    symmetry. apply not_expired_iff. lia.
  - rewrite <- expired_iff.
    destruct (expired now (ttl (self w)) it); split; done.
Qed.

(** C4. A pass of the sweeper reads the clock once ([now]).  It removes from
    the map every entry whose age [now.Sub(CreatedTime)] is greater than the
    TTL, and only those: every entry whose age is at most the TTL is still
    there after the pass, under the same key, with the same value and the
    same creation time.  The pass adds no entry, and changes neither the
    items, the TTL nor the channel. *)
Theorem cleanup_frame now w :
  wf w →
  ∃ w', cleanup now w = Ok tt w'
    ∧ heap w' = heap w
    ∧ ttl (self w') = ttl (self w)
    ∧ stopCleanup (self w') = stopCleanup (self w)
    ∧ (∀ key p it, holds w key p it →
         ttl (self w) < Sub now (CreatedTime it) →
         cache (self w') !! key = None)
    ∧ (∀ key p it, holds w key p it →
         Sub now (CreatedTime it) <= ttl (self w) →
         holds w' key p it)
    ∧ (∀ key, cache (self w) !! key = None →
         cache (self w') !! key = None)
    ∧ (∀ key p, cache (self w') !! key = Some p →
         cache (self w) !! key = Some p).
Proof.
  intros Hwf. eexists. split; [by apply cleanup_unfold|].
  split; [done|]. split; [done|]. split; [done|].
  split; [|split; [|split]].
  - intros key p it Hh Hage. pose proof Hh as [Hk Hp].
    rewrite cleanup_lookup, Hk. simpl.
    rewrite (stale_holds now _ _ _ _ Hh).
    apply expired_iff in Hage. by rewrite Hage.
  - intros key p it Hh Hage. pose proof Hh as [Hk Hp].
    split; [|done]. rewrite cleanup_lookup, Hk. simpl.
    rewrite (stale_holds now _ _ _ _ Hh).
    apply not_expired_iff in Hage. by rewrite Hage.
  - intros key Hk. rewrite cleanup_lookup, Hk. done.
  - intros key p Hk. simpl in Hk.
    by apply map_lookup_filter_Some in Hk as [Hk _].
Qed.

(** C7. [Clear] empties the cache: run with no other writer, it returns
    with an empty map, so that [Get] answers the zero value and [false] for
    every key, those written before among them. *)
Theorem Clear_empties w :
  ∃ w', Clear w = Ok tt w'
    ∧ cache (self w') = ∅
    ∧ ∀ key, Get key w' = Ok (zero, false) w'.
Proof.
  eexists. split; [apply Clear_unfold|]. split; [done|].
  intros key. apply Get_absent. simpl. apply lookup_empty.
Qed.

(** C8. [Delete] never fails; after [Delete(key)], whatever the state
    before, [Get(key)] answers the zero value and [false]; and [Delete] of
    a key the map does not hold leaves everything as it was. *)
Theorem Delete_then_Get w key :
  ∃ w', Delete key w = Ok tt w'
    ∧ Get key w' = Ok (zero, false) w'
    ∧ (∀ k, k ≠ key → cache (self w') !! k = cache (self w) !! k)
    ∧ heap w' = heap w
    ∧ (cache (self w) !! key = None → w' = w).
Proof.
  eexists. split; [apply Delete_unfold|]. repeat split.
  - apply Get_absent. simpl. apply lookup_delete_eq.
  - intros k Hk. simpl. by apply lookup_delete_ne.
  - intros Hk. destruct w as [h [m d c]]. unfold with_cache. simpl in *.
    by rewrite delete_id.
Qed.

(** C9. [Set] replaces the entry wholesale: it allocates one new item, made
    of the value given and the reading of the clock, in a cell that was not
    in use, and points the key to it.  No item that existed is written (none
    changes its value or its creation time), the new item owes nothing to an
    entry the key had before, and the other keys, the TTL and the channel are
    left alone. *)
Theorem Set_installs_fresh_item w key (value : V) now :
  ∃ w', Set_ key value now w = Ok tt w'
    ∧ heap w !! length (heap w) = None
    ∧ heap w' = heap w ++ [{| Value := value; CreatedTime := now |}]
    ∧ holds w' key (length (heap w))
        {| Value := value; CreatedTime := now |}
    ∧ (∀ q it, heap w !! q = Some it → heap w' !! q = Some it)
    ∧ (∀ k, k ≠ key → cache (self w') !! k = cache (self w) !! k)
    ∧ ttl (self w') = ttl (self w)
    ∧ stopCleanup (self w') = stopCleanup (self w).
Proof.
  eexists. split; [apply Set_unfold|]. repeat split; simpl.
  - by apply lookup_ge_None_2.
  - apply lookup_insert_eq.
  - rewrite lookup_app_r by done. by rewrite Nat.sub_diag.
  - intros q it Hq. by apply lookup_app_l_Some.
  - intros k Hk. by apply lookup_insert_ne.
Qed.

(** ** The steps of the system *)

Lemma Get_total w key : wf w → ∃ r, Get key w = Ok r w.
Proof.
  intros Hwf. destruct (cache (self w) !! key) as [p|] eqn:Hk.
  - destruct (Hwf _ _ Hk) as [it Hp]. exists (Value it, true).
    by apply (Get_holds _ _ p).
  - exists (zero, false). by apply Get_absent.
Qed.

Lemma call_Ok {A} (m : M A) s a w :
  m (world s) = Ok a w → call m s = Next (with_world w s).
Proof. unfold call. by intros ->. Qed.

Lemma world_fire s : world (fire s) = world s.
Proof. unfold fire. by destruct (sweeper s). Qed.

Lemma world_wake_on_close s : world (wake_on_close s) = world s.
Proof. unfold wake_on_close. by destruct (sweeper s). Qed.

(** A step that happens from a good state, event by event. *)
Lemma step_CallStopCleanup s :
  stopCleanup (self (world s)) = chan_open →
  step CallStopCleanup s =
    Next (wake_on_close (with_world (with_chan chan_closed (world s)) s)).
Proof.
  intros Hc. simpl. by rewrite (call_Ok _ _ _ _ (StopCleanup_open _ Hc)).
Qed.

Lemma step_CallStopCleanup_closed s :
  stopCleanup (self (world s)) = chan_closed →
  step CallStopCleanup s = Crash "close of closed channel".
Proof.
  intros Hc. simpl. unfold call. by rewrite (StopCleanup_closed _ Hc).
Qed.

Lemma step_SwCleanup s now :
  wf (world s) → sweeper s = GotTick →
  step (SwCleanup now) s =
    Next (with_world (world_after (SwCleanup now) (world s))
            (with_sweeper AtSelect s)).
Proof.
  intros Hwf Hg. simpl. unfold startCleanupRoutine. rewrite Hg.
  apply call_Ok with (a := tt). simpl. by apply cleanup_unfold.
Qed.

Lemma step_SwCleanup_disabled s now :
  sweeper s ≠ GotTick → step (SwCleanup now) s = Disabled.
Proof. simpl. unfold startCleanupRoutine. by destruct (sweeper s). Qed.

Lemma step_world s e s' :
  inv s → step e s = Next s' → world s' = world_after e (world s).
Proof.
  intros (Hwf & Hnil & Hpark) Hstep. destruct e; simpl in Hstep.
  - unfold call in Hstep. rewrite Set_unfold in Hstep. by inversion Hstep.
  - unfold call in Hstep. destruct (Get_total _ key Hwf) as [r Hr].
    rewrite Hr in Hstep. by inversion Hstep.
  - unfold call in Hstep. rewrite Delete_unfold in Hstep.
    by inversion Hstep.
  - unfold call in Hstep. rewrite Clear_unfold in Hstep. by inversion Hstep.
  - unfold call, StopCleanup, close_stopCleanup in Hstep.
    destruct (stopCleanup (self (world s))); try discriminate.
    inversion Hstep. by rewrite world_wake_on_close.
  - inversion Hstep. apply world_fire.
  - unfold startCleanupRoutine, NewTicker in Hstep.
    destruct (sweeper s); try discriminate.
    destruct (ttl (self (world s)) <=? 0); try discriminate.
    by inversion Hstep.
  - unfold startCleanupRoutine in Hstep.
    destruct (sweeper s); try discriminate.
    destruct (tickerC s); try discriminate. by inversion Hstep.
  - unfold startCleanupRoutine in Hstep.
    destruct (sweeper s); try discriminate.
    case_decide; try discriminate. by inversion Hstep.
  - unfold startCleanupRoutine in Hstep.
    destruct (sweeper s); try discriminate.
    destruct (tickerC s); try discriminate.
    case_decide; try discriminate. by inversion Hstep.
  - destruct (decide (sweeper s = GotTick)) as [Hg|Hg].
    + change (step (SwCleanup now) s = Next s') in Hstep.
      rewrite (step_SwCleanup _ _ Hwf Hg) in Hstep. by inversion Hstep.
    + change (step (SwCleanup now) s = Next s') in Hstep.
      by rewrite (step_SwCleanup_disabled _ _ Hg) in Hstep.
Qed.

Lemma wf_world_after e w : wf w → wf (world_after e w).
Proof.
  intros Hwf. destruct e; simpl; try done.
  - intros k p. simpl.
    destruct (decide (k = key)) as [->|Hne].
    + rewrite lookup_insert_eq. intros [= <-].
      apply lookup_lt_is_Some. rewrite length_app. simpl. lia.
    + rewrite lookup_insert_ne by done. intros Hk.
      destruct (Hwf _ _ Hk) as [it Hit]. exists it.
      by apply lookup_app_l_Some.
  - by apply wf_with_cache_delete.
  - intros k p. simpl. intros Hk.
    apply map_lookup_filter_Some in Hk as [Hk _]. by apply (Hwf k).
Qed.

Lemma ttl_world_after e w : ttl (self (world_after e w)) = ttl (self w).
Proof. by destruct e. Qed.

Lemma chan_world_after e w :
  stopCleanup (self (world_after e w)) =
    if is_stop e then chan_closed else stopCleanup (self w).
Proof. by destruct e. Qed.

Lemma holds_world_after e w key p it :
  holds w key p it →
  spares key (ttl (self w)) (CreatedTime it) e = true →
  holds (world_after e w) key p it.
Proof.
  intros [Hk Hp] Hsp. destruct e; simpl in *; try done.
  - apply negb_true_iff, bool_decide_eq_false in Hsp. split; simpl.
    + by rewrite lookup_insert_ne.
    + by apply lookup_app_l_Some.
  - apply negb_true_iff, bool_decide_eq_false in Hsp. split; simpl; [|done].
    by rewrite lookup_delete_ne.
  - split; [|done]. rewrite cleanup_lookup, Hk. simpl.
    rewrite (stale_holds now w key p it) by done.
    unfold expired. apply negb_true_iff in Hsp. by rewrite Hsp.
Qed.

(** Case analysis on a step that happened: every test the step made is
    decided, and the next state is what the branch taken built. *)
Ltac step_cases Hstep :=
  unfold step, startCleanupRoutine, NewTicker, call in Hstep;
  repeat match type of Hstep with
    | context [match ?x with _ => _ end] =>
        destruct x eqn:?; try discriminate Hstep
    end;
  inversion Hstep; subst; clear Hstep.

Lemma step_control s e s' :
  step e s = Next s' →
  sweeper s' = Parked →
  (sweeper s = Parked ∧ tickerC s' = tickerC s ∧ is_stop e = false)
  ∨ (tickerC s' = false ∧ stopCleanup (self (world s)) ≠ chan_closed
     ∧ is_stop e = false).
Proof.
  intros Hstep Hp.
  destruct e; step_cases Hstep; simpl in *;
    try discriminate; try (left; by repeat split);
    try (right; by repeat split).
  - unfold wake_on_close in Hp.
    destruct (sweeper s0) eqn:Hg; simpl in Hp; congruence.
  - unfold fire in Hp.
    destruct (sweeper s) eqn:Hg; simpl in Hp; congruence.
Qed.

Lemma step_stopped s e s' :
  step e s = Next s' → sweeper s = Stopped → sweeper s' = Stopped.
Proof.
  intros Hstep Hs.
  destruct e; step_cases Hstep; simpl in *; try done; try congruence.
  - destruct (StopCleanup (world s)) as [a w|]; [|discriminate].
    inversion Heqo; subst. unfold wake_on_close. simpl. by rewrite Hs.
  - unfold fire. by rewrite Hs.
Qed.

Lemma inv_NewCache d : inv (NewCache d : System).
Proof.
  repeat split; done.
Qed.

Lemma step_inv s e s' : inv s → step e s = Next s' → inv s'.
Proof.
  intros Hinv Hstep. pose proof (step_world _ _ _ Hinv Hstep) as Hw.
  destruct Hinv as (Hwf & Hnil & Hpark). split; [|split].
  - rewrite Hw. by apply wf_world_after.
  - rewrite Hw, chan_world_after. by destruct (is_stop e).
  - intros Hp'. rewrite Hw, chan_world_after.
    destruct (step_control _ _ _ Hstep Hp')
      as [(Hp & Ht & Hs)|(Ht & Hc & Hs)]; rewrite Hs, Ht.
    + by apply Hpark.
    + split; [done|]. by destruct (stopCleanup (self (world s))).
Qed.

Lemma run_inv es s s' : inv s → run es s = Next s' → inv s'.
Proof.
  revert s. induction es as [|e es IH]; intros s Hinv Hrun; simpl in Hrun.
  - inversion Hrun; by subst.
  - destruct (step e s) as [s1| |] eqn:Hstep; try discriminate.
    apply (IH s1); [by apply (step_inv s e)|done].
Qed.

Lemma run_ttl es s s' :
  inv s → run es s = Next s' →
  ttl (self (world s')) = ttl (self (world s)).
Proof.
  revert s. induction es as [|e es IH]; intros s Hinv Hrun; simpl in Hrun.
  - inversion Hrun; by subst.
  - destruct (step e s) as [s1| |] eqn:Hstep; try discriminate.
    rewrite (IH s1); [|by apply (step_inv s e)|done].
    by rewrite (step_world _ _ _ Hinv Hstep), ttl_world_after.
Qed.

(** The channel is closed by [StopCleanup] and by nothing else. *)
Lemma run_chan es s s' :
  inv s → run es s = Next s' →
  stopCleanup (self (world s')) =
    if existsb is_stop es then chan_closed else stopCleanup (self (world s)).
Proof.
  revert s. induction es as [|e es IH]; intros s Hinv Hrun; simpl in Hrun.
  - inversion Hrun; by subst.
  - destruct (step e s) as [s1| |] eqn:Hstep; try discriminate.
    rewrite (IH s1); [|by apply (step_inv s e)|done]. simpl.
    rewrite (step_world _ _ _ Hinv Hstep), chan_world_after.
    destruct (is_stop e); simpl; [|done]. by destruct (existsb is_stop es).
Qed.

(** An entry stays what it is along events that spare it. *)
Lemma run_holds es s s' key p it :
  inv s → run es s = Next s' →
  holds (world s) key p it →
  forallb (spares key (ttl (self (world s))) (CreatedTime it)) es = true →
  holds (world s') key p it.
Proof.
  revert s. induction es as [|e es IH]; intros s Hinv Hrun Hh Hsp;
    simpl in Hrun.
  - inversion Hrun; by subst.
  - destruct (step e s) as [s1| |] eqn:Hstep; try discriminate.
    simpl in Hsp. apply andb_true_iff in Hsp as [Hsp1 Hsp2].
    pose proof (step_world _ _ _ Hinv Hstep) as Hw.
    apply (IH s1); [by apply (step_inv s e)|done| |].
    + rewrite Hw. by apply holds_world_after.
    + by rewrite Hw, ttl_world_after.
Qed.

(** Once the goroutine has returned, it stays so, and no pass of the sweeper
    is a step of the system. *)
Lemma run_stopped es s s' :
  run es s = Next s' → sweeper s = Stopped →
  sweeper s' = Stopped ∧ existsb is_cleanup es = false.
Proof.
  revert s. induction es as [|e es IH]; intros s Hrun Hs; simpl in Hrun.
  - inversion Hrun; by subst.
  - destruct (step e s) as [s1| |] eqn:Hstep; try discriminate.
    destruct (IH s1 Hrun (step_stopped _ _ _ Hstep Hs)) as [Hs' Hno].
    split; [done|]. simpl. rewrite Hno.
    destruct e; try done. rewrite step_SwCleanup_disabled in Hstep; [done|].
    by rewrite Hs.
Qed.

Lemma lookup_result_holds s key p it :
  holds (world s) key p it → lookup_result key s = Some (Value it, true).
Proof. intros Hh. unfold lookup_result. by rewrite (Get_holds _ _ p it). Qed.

Lemma spares_no_cleanup key d t e :
  is_cleanup e = false → spares key d t e = negb (disturbs key e).
Proof. by destruct e. Qed.

Lemma spares_of_undisturbed key d t es :
  forallb (λ e, negb (disturbs key e)) es = true →
  existsb is_cleanup es = false →
  forallb (spares key d t) es = true.
Proof.
  induction es as [|e es IH]; simpl; [done|].
  intros [He Hes]%andb_true_iff [Hc Hcs]%orb_false_iff.
  rewrite (spares_no_cleanup _ _ _ _ Hc), He. simpl. by apply IH.
Qed.

(** What can bring the program down: [NewTicker] in the goroutine, on a TTL
    that is not positive, and closing the channel a second time. *)
Lemma step_Crash_cause s e msg :
  inv s → step e s = Crash msg →
  (e = SwStart ∧ sweeper s = Spawned ∧ ttl (self (world s)) <= 0)
  ∨ (e = CallStopCleanup ∧ stopCleanup (self (world s)) = chan_closed).
Proof.
  intros (Hwf & Hnil & Hpark) Hstep. destruct e; simpl in Hstep.
  - unfold call in Hstep. by rewrite Set_unfold in Hstep.
  - unfold call in Hstep. destruct (Get_total _ key Hwf) as [r Hr].
    by rewrite Hr in Hstep.
  - unfold call in Hstep. by rewrite Delete_unfold in Hstep.
  - unfold call in Hstep. by rewrite Clear_unfold in Hstep.
  - right. split; [done|].
    unfold call, StopCleanup, close_stopCleanup in Hstep.
    by destruct (stopCleanup (self (world s))).
  - discriminate.
  - left. split; [done|].
    unfold startCleanupRoutine, NewTicker in Hstep.
    destruct (sweeper s); try discriminate. split; [done|].
    destruct (Z.leb_spec (ttl (self (world s))) 0); [done|discriminate].
  - unfold startCleanupRoutine in Hstep.
    destruct (sweeper s); try discriminate.
    by destruct (tickerC s).
  - unfold startCleanupRoutine in Hstep.
    destruct (sweeper s); try discriminate. by case_decide.
  - unfold startCleanupRoutine in Hstep.
    destruct (sweeper s); try discriminate.
    destruct (tickerC s); try discriminate. by case_decide.
  - change (step (SwCleanup now) s = Crash msg) in Hstep.
    destruct (decide (sweeper s = GotTick)) as [Hg|Hg].
    + by rewrite (step_SwCleanup _ _ Hwf Hg) in Hstep.
    + by rewrite (step_SwCleanup_disabled _ _ Hg) in Hstep.
Qed.

Lemma inv_wf s : inv s → wf (world s).
Proof. by intros [Hwf _]. Qed.

(** ** What the cache guarantees over time *)

(** C2. Write, then read: [Set(key, value)] always returns, and [Get(key)]
    then answers [value] and [true], at once and after any events that
    spare the entry: no [Delete(key)], no [Clear()], no pass of the sweeper
    at a reading that makes the entry older than the TTL (and no later
    [Set(key, _)], which starts the property anew with its own value). *)
Theorem Set_then_Get s key (value : V) now :
  inv s →
  ∃ s1, step (CallSet key value now) s = Next s1
    ∧ lookup_result key s1 = Some (value, true)
    ∧ ∀ es s2,
        forallb (spares key (ttl (self (world s))) now) es = true →
        run es s1 = Next s2 →
        lookup_result key s2 = Some (value, true).
Proof.
  intros Hinv. eexists. split; [reflexivity|].
  set (s1 := with_world _ s).
  assert (step (CallSet key value now) s = Next s1) as Hstep by reflexivity.
  assert (holds (world s1) key (length (heap (world s)))
            {| Value := value; CreatedTime := now |}) as Hh.
  { split; simpl.
    - apply lookup_insert_eq.
    - rewrite lookup_app_r by done. by rewrite Nat.sub_diag. }
  split; [by apply (lookup_result_holds _ _ _ _ Hh)|].
  intros es s2 Hsp Hrun.
  apply (lookup_result_holds _ _ (length (heap (world s)))
           {| Value := value; CreatedTime := now |}).
  apply (run_holds es s1);
    [by apply (step_inv s (CallSet key value now) s1)|done|done|].
  by rewrite (step_world _ _ _ Hinv Hstep), ttl_world_after.
Qed.

(** C5. Stopping twice is fatal.  On a cache made by [NewCache], the first
    call of [StopCleanup] returns and leaves the channel closed, which
    releases a goroutine blocked in the [select]; whatever happens next, a
    second call panics with "close of closed channel". *)
Theorem StopCleanup_twice_panics d es1 s1 :
  run es1 (NewCache d) = Next s1 →
  existsb is_stop es1 = false →
  ∃ s2, step CallStopCleanup s1 = Next s2
    ∧ stopCleanup (self (world s2)) = chan_closed
    ∧ (sweeper s1 = Parked → sweeper s2 = Stopped)
    ∧ ∀ es2 s3, run es2 s2 = Next s3 →
        step CallStopCleanup s3 = Crash "close of closed channel".
Proof.
  intros Hrun Hfirst.
  pose proof (run_inv _ _ _ (inv_NewCache d) Hrun) as Hinv1.
  pose proof (run_chan _ _ _ (inv_NewCache d) Hrun) as Hc1.
  rewrite Hfirst in Hc1. simpl in Hc1.
  pose proof (step_CallStopCleanup _ Hc1) as Hstep.
  eexists. split; [exact Hstep|].
  pose proof (step_inv _ _ _ Hinv1 Hstep) as Hinv2.
  assert (stopCleanup (self (world (wake_on_close
            (with_world (with_chan chan_closed (world s1)) s1))))
          = chan_closed) as Hc2.
  { by rewrite world_wake_on_close. }
  split; [done|]. split.
  - intros Hp. unfold wake_on_close. simpl. by rewrite Hp.
  - intros es2 s3 Hrun2. apply step_CallStopCleanup_closed.
    rewrite (run_chan _ _ _ Hinv2 Hrun2), Hc2.
    by destruct (existsb is_stop es2).
Qed.

(** C6, as the code has it.  When [StopCleanup] is called while the
    goroutine is blocked in its [select], the goroutine takes the case
    [<-c.stopCleanup] and returns: no pass of the sweeper is a step of the
    system any more, and an entry the map holds stays retrievable by [Get],
    with its value, through any ticks of the timer and any calls that do
    not write, delete or clear it. *)
Theorem stop_while_parked_keeps_entries s1 key p it :
  inv s1 → sweeper s1 = Parked → holds (world s1) key p it →
  ∃ s2, step CallStopCleanup s1 = Next s2
    ∧ sweeper s2 = Stopped
    ∧ ∀ es s3,
        run es s2 = Next s3 →
        forallb (λ e, negb (disturbs key e)) es = true →
        sweeper s3 = Stopped
        ∧ existsb is_cleanup es = false
        ∧ lookup_result key s3 = Some (Value it, true).
Proof.
  intros Hinv Hp Hh.
  destruct Hinv as (Hwf & Hnil & Hpark).
  destruct (Hpark Hp) as [_ Hopen].
  pose proof (step_CallStopCleanup _ Hopen) as Hstep.
  eexists. split; [exact Hstep|].
  set (s2 := wake_on_close _) in *.
  assert (sweeper s2 = Stopped) as Hs2.
  { unfold s2, wake_on_close. simpl. by rewrite Hp. }
  split; [done|]. intros es s3 Hrun Hquiet.
  destruct (run_stopped _ _ _ Hrun Hs2) as [Hs3 Hno].
  split; [done|]. split; [done|].
  apply (lookup_result_holds _ _ p).
  assert (inv s2) as Hinv2 by by apply (step_inv s1 CallStopCleanup).
  apply (run_holds es s2); [done|done| |by apply spares_of_undisturbed].
  rewrite (step_world s1 CallStopCleanup s2) by done.
  by apply holds_world_after.
Qed.

(** C10. [NewCache] makes no check of the TTL: for every duration, zero and
    negative ones included, it returns a cache with this TTL, an empty map
    and an open channel, on which every call of the foreground returns.
    What fails for a TTL that is not positive is [time.NewTicker], in the
    goroutine it started; and nothing else can bring the program down but a
    second [StopCleanup]. *)
Theorem NewCache_accepts_any_ttl d :
  ttl (self (world (NewCache d : System))) = d
  ∧ cache (self (world (NewCache d : System))) = ∅
  ∧ stopCleanup (self (world (NewCache d : System))) = chan_open
  ∧ sweeper (NewCache d : System) = Spawned
  ∧ (∀ e, is_call e = true → ∃ s', step e (NewCache d) = Next s')
  ∧ (step SwStart (NewCache d : System)
       = Crash "non-positive interval for NewTicker" ↔ d <= 0)
  ∧ (∀ es s e msg,
       run es (NewCache d) = Next s → step e s = Crash msg →
       (e = SwStart ∧ sweeper s = Spawned ∧ d <= 0)
       ∨ (e = CallStopCleanup ∧ existsb is_stop es = true)).
Proof.
  repeat split; try done.
  - intros e He. destruct e; try discriminate; by eexists.
  - simpl. unfold startCleanupRoutine, NewTicker. simpl.
    destruct (Z.leb_spec d 0); [done|discriminate].
  - intros Hd. simpl. unfold startCleanupRoutine, NewTicker. simpl.
    destruct (Z.leb_spec d 0); [done|lia].
  - intros es s e msg Hrun Hcrash.
    pose proof (run_inv _ _ _ (inv_NewCache d) Hrun) as Hinv.
    destruct (step_Crash_cause _ _ _ Hinv Hcrash)
      as [(-> & Hs & Hd)|(-> & Hc)].
    + left. rewrite (run_ttl _ _ _ (inv_NewCache d) Hrun) in Hd. done.
    + right. split; [done|].
      rewrite (run_chan _ _ _ (inv_NewCache d) Hrun) in Hc.
      by destruct (existsb is_stop es).
Qed.

End proofs.

(** * Further properties of the code *)

Section further.

Context {K : Type} `{Countable K}.
Context {V : Type} `{Inhabited V}.

Local Abbreviation M := (M K V).
Local Abbreviation World := (World K V).
Local Abbreviation System := (@System K _ _ V).
Local Abbreviation CachedItem := (CachedItem V).
Local Abbreviation event := (@event K V).
Local Open Scope go_scope.

Implicit Types (w : World) (s : System) (key k : K) (p : loc)
  (it : CachedItem) (now : Time) (e : event) (es : list event).

(** ** Passes of the sweeper, composed *)

Lemma Sub_mono (t1 t2 u : Time) : t1 <= t2 → Sub t1 u <= Sub t2 u.
Proof.
  intros Ht. unfold Sub, minDuration, maxDuration.
  repeat match goal with
    | |- context [?a <? ?b] => destruct (Z.ltb_spec a b)
    end; lia.
Qed.

Lemma stale_mono now1 now2 w p :
  now1 <= now2 → stale now1 w p = true → stale now2 w p = true.
Proof.
  intros Ht. unfold stale. destruct (heap w !! p) as [it|]; [|done].
  rewrite !expired_iff. pose proof (Sub_mono now1 now2 (CreatedTime it) Ht).
  lia.
Qed.

Lemma wf_after_cleanup now w :
  wf w → wf (with_cache (filter (λ kp, stale now w kp.2 = false)) w).
Proof. intros Hwf. by apply (wf_world_after (SwCleanup now)). Qed.

(** A pass that finds nothing to remove changes nothing. *)
Lemma cleanup_nothing_stale now w :
  wf w →
  (∀ key p, cache (self w) !! key = Some p → stale now w p = false) →
  cleanup now w = Ok tt w.
Proof.
  intros Hwf Hkeep. rewrite cleanup_unfold by done. f_equal.
  transitivity (with_cache (λ m, m) w); [|apply with_cache_id].
  apply with_cache_ext.
  apply map_filter_id. intros key p Hk. simpl. by apply (Hkeep key).
Qed.

(** X4. Two passes in a row, the second at a reading no earlier than the
    first, leave what the second pass alone leaves; in particular a pass
    repeated at the same reading changes nothing more. *)
Theorem cleanup_twice now1 now2 w :
  wf w → now1 <= now2 →
  (cleanup now1 ;; cleanup now2) w = cleanup now2 w.
Proof.
  intros Hwf Ht. unfold bind.
  rewrite (cleanup_unfold now1) by done.
  rewrite !cleanup_unfold by (done || by apply wf_after_cleanup).
  rewrite with_cache_compose. f_equal. apply with_cache_ext. simpl.
  apply map_filter_filter_l. intros key p Hk. simpl.
  unfold stale at 1. simpl. fold (stale now2 w p). intros Hkeep.
  destruct (stale now1 w p) eqn:Hs; [|done].
  by rewrite (stale_mono now1 now2 w p Ht Hs) in Hkeep.
Qed.

(** X5. A pass at a reading at which no entry is older than the TTL leaves
    the cache exactly as it was; so does a pass over an empty map. *)
Theorem cleanup_nothing_expired now w :
  wf w →
  (∀ key p it, holds w key p it →
     Sub now (CreatedTime it) <= ttl (self w)) →
  cleanup now w = Ok tt w.
Proof.
  intros Hwf Hage. apply cleanup_nothing_stale; [done|].
  intros key p Hk. destruct (Hwf _ _ Hk) as [it Hp].
  rewrite (stale_holds now w key p it) by done.
  apply not_expired_iff. by apply (Hage key p).
Qed.

(** X6. Under a TTL of [maxDuration] (the largest [time.Duration]) no pass
    ever removes an entry, whatever the reading of the clock: the age
    [now.Sub(CreatedTime)] cannot exceed it. *)
Theorem cleanup_max_ttl now w :
  wf w → maxDuration <= ttl (self w) → cleanup now w = Ok tt w.
Proof.
  intros Hwf Hmax. apply cleanup_nothing_stale; [done|].
  intros key p Hk. unfold stale. destruct (heap w !! p) as [it|]; [|done].
  apply not_expired_iff.
  assert (Sub now (CreatedTime it) <= maxDuration); [|lia].
  unfold Sub, minDuration, maxDuration.
  repeat match goal with
    | |- context [?a <? ?b] => destruct (Z.ltb_spec a b)
    end; lia.
Qed.

(** ** One key at a time *)

Lemma entry_of_holds w key p it :
  holds w key p it → entry_of w key = Some (Value it, CreatedTime it).
Proof. intros [Hk Hp]. unfold entry_of. by rewrite Hk, Hp. Qed.

Lemma entry_of_absent w key :
  cache (self w) !! key = None → entry_of w key = None.
Proof. intros Hk. unfold entry_of. by rewrite Hk. Qed.

Lemma entry_world_after e w key :
  wf w →
  entry_of (world_after e w) key =
    track key (ttl (self w)) (entry_of w key) e.
Proof.
  intros Hwf. destruct e; try reflexivity; simpl.
  - unfold entry_of. simpl. case_bool_decide as Hk.
    + subst. rewrite lookup_insert_eq.
      rewrite lookup_app_r by done. by rewrite Nat.sub_diag.
    + rewrite lookup_insert_ne by done.
      destruct (cache (self w) !! key) as [p|] eqn:Hp; [|done].
      destruct (Hwf _ _ Hp) as [it Hit].
      by rewrite (lookup_app_l_Some _ _ _ _ Hit), Hit.
  - unfold entry_of. simpl. case_bool_decide as Hk.
    + subst. by rewrite lookup_delete_eq.
    + by rewrite lookup_delete_ne.
  - unfold entry_of at 1. rewrite cleanup_lookup. simpl.
    destruct (cache (self w) !! key) as [p|] eqn:Hp; simpl.
    + destruct (Hwf _ _ Hp) as [it Hit].
      rewrite (entry_of_holds w key p it) by done.
      rewrite (stale_holds now w key p it) by done. unfold expired.
      destruct (ttl (self w) <? Sub now (CreatedTime it)); [done|].
      by rewrite Hit.
    + by rewrite entry_of_absent.
Qed.

Lemma run_entry es s s' key :
  inv s → run es s = Next s' →
  entry_of (world s') key =
    foldl (track key (ttl (self (world s)))) (entry_of (world s) key) es.
Proof.
  revert s. induction es as [|e es IH]; intros s Hinv Hrun; simpl in Hrun.
  - inversion Hrun; by subst.
  - destruct (step e s) as [s1| |] eqn:Hstep; try discriminate.
    pose proof (step_world _ _ _ Hinv Hstep) as Hw.
    rewrite (IH s1); [|by apply (step_inv s e)|done]. simpl.
    rewrite Hw, ttl_world_after, entry_world_after; [done|].
    by apply inv_wf.
Qed.

Lemma lookup_result_entry s key :
  wf (world s) →
  lookup_result key s = Some (answer (entry_of (world s) key)).
Proof.
  intros Hwf. destruct (cache (self (world s)) !! key) as [p|] eqn:Hk.
  - destruct (Hwf _ _ Hk) as [it Hp].
    rewrite (entry_of_holds _ key p it) by done.
    by apply (lookup_result_holds _ _ p).
  - rewrite entry_of_absent by done. unfold lookup_result.
    by rewrite Get_absent.
Qed.

Lemma track_unwritten key d es :
  existsb (writes key) es = false → foldl (track key d) None es = None.
Proof.
  induction es as [|e es IH]; simpl; [done|].
  intros [He Hes]%orb_false_iff.
  replace (track key d None e) with (@None (V * Time)); [by apply IH|].
  destruct e; simpl in *; try done.
  - by rewrite He.
  - by case_bool_decide.
Qed.

(** X1. A key that was never written is not found: on a cache made by
    [NewCache], after any run that contains no [Set] of the key, [Get]
    answers the zero value and [false]. *)
Theorem Get_never_written d es s key :
  run es (NewCache d) = Next s →
  existsb (writes key) es = false →
  lookup_result key s = Some (zero, false).
Proof.
  intros Hrun Hnone.
  pose proof (run_inv _ _ _ (inv_NewCache d) Hrun) as Hinv.
  rewrite lookup_result_entry by by apply inv_wf.
  rewrite (run_entry _ _ _ key (inv_NewCache d) Hrun). simpl.
  by rewrite track_unwritten.
Qed.

(** ** Passes taken apart *)

Local Abbreviation Fine := (@Fine K _ _ V).
Local Abbreviation fine_event := (@fine_event K V).
Implicit Types (f : Fine) (fe : fine_event) (fes : list fine_event).








(** X12. The pass deletes by key, not by item: a [Set(key, value)] that lands
    after the visitor has found the old item of [key] too old and before its
    [Del(key)] is lost.  [Get] finds the new value until the deletion and
    nothing after it, however recent the write. *)
Theorem Set_inside_pass_is_lost f now key (value : V) now' :
  fine_place f = Condemned now key →
  ∃ f1 f2,
    fine_step (Whole (CallSet key value now')) f = FineNext f1
    ∧ lookup_result key (seen f1) = Some (value, true)
    ∧ fine_step PassDel f1 = FineNext f2
    ∧ fine_place f2 = Sweeping now
    ∧ lookup_result key (seen f2) = Some (zero, false).
Proof.
  intros Hpl. eexists. eexists. split; [reflexivity|]. split.
  - apply (lookup_result_holds _ key (length (heap (fine_world f)))
             {| Value := value; CreatedTime := now' |}).
    split; simpl.
    + apply lookup_insert_eq.
    + rewrite lookup_app_r by done. by rewrite Nat.sub_diag.
  - simpl. rewrite Hpl. split; [reflexivity|]. split; [done|].
    unfold lookup_result. rewrite Get_absent; [done|].
    simpl. apply lookup_delete_eq.
Qed.

Lemma fine_run_app fes1 fes2 f :
  fine_run (fes1 ++ fes2) f =
    match fine_run fes1 f with
    | FineNext f' => fine_run fes2 f'
    | o => o
    end.
Proof.
  revert f. induction fes1 as [|fe fes1 IH]; intros f; simpl; [done|].
  by destruct (fine_step fe f).
Qed.

Lemma visits_run now w0 nodes f :
  fine_place f = Sweeping now →
  wf (fine_world f) →
  heap (fine_world f) = heap w0 →
  ttl (self (fine_world f)) = ttl (self w0) →
  NoDup nodes.*1 →
  (∀ k p, (k, p) ∈ nodes → cache (self (fine_world f)) !! k = Some p) →
  fine_run (visits now w0 nodes) f =
    FineNext
      (with_fine_world
         (with_cache (λ m, foldl (prune_step (stale now w0)) m nodes.*1)
            (fine_world f)) f).
Proof.
  revert f. induction nodes as [|[k p] nodes IH];
    intros f Hpl Hwf Hh Hd Hnd Hin.
  - simpl. rewrite with_cache_id. by destruct f.
  - apply NoDup_cons in Hnd as [Hk Hnd].
    assert (cache (self (fine_world f)) !! k = Some p) as Hkp
      by (apply Hin; left).
    destruct (Hwf _ _ Hkp) as [it Hit].
    assert (stale now w0 p = expired now (ttl (self (fine_world f))) it)
      as Hst.
    { unfold stale. by rewrite <- Hh, Hit, Hd. }
    cbn [visits]. rewrite fine_run_app.
    destruct (stale now w0 p) eqn:Hs.
    + cbn [fine_run fine_step]. rewrite Hpl, Hkp. unfold load.
      rewrite Hit, <- Hst. cbn [fine_step with_place fine_place hax_Del].
      cbn [fine_world with_fine_world].
      rewrite IH; try done.
      * cbn [fine_world with_place with_fine_world fine_place fine_tickerC].
        rewrite with_cache_compose. f_equal.
        destruct f as [w pl t]. simpl in *. subst pl.
        unfold with_fine_world, with_place. simpl. f_equal.
        apply with_cache_ext. simpl.
        by rewrite (prune_step_hit _ _ _ _ Hkp Hs).
      * by apply wf_with_cache_delete.
      * intros k' p' Hkp'. simpl. rewrite lookup_delete_ne.
        -- apply Hin. by right.
        -- intros ->. apply Hk. apply list_elem_of_fmap.
           by exists (k', p').
    + cbn [fine_run fine_step]. rewrite Hpl, Hkp. unfold load.
      rewrite Hit, <- Hst.
      rewrite IH; try done.
      * f_equal. f_equal. apply with_cache_ext. simpl.
        by rewrite (prune_step_keep _ _ _ _ Hkp Hs).
      * intros k' p' Hkp'. apply Hin. by right.
Qed.

(** X13. A pass that nothing interrupts is [cleanup]: begun on a tick, run
    through the visits of the keys of the map in the order of the traversal
    and ended, it leaves the system where the pass taken as one step leaves
    it. *)
Theorem pass_alone_is_cleanup s now :
  inv s → sweeper s = GotTick →
  ∃ s', step (SwCleanup now) s = Next s'
    ∧ fine_run (pass_alone now (world s)) (fine_of s) = FineNext (fine_of s').
Proof.
  intros Hinv Hg. pose proof (inv_wf _ Hinv) as Hwf.
  eexists. split; [by apply step_SwCleanup|].
  unfold pass_alone. cbn [fine_run fine_step fine_of fine_place].
  rewrite Hg. rewrite fine_run_app.
  rewrite (visits_run now (world s)); try done.
  - cbn [fine_run fine_step with_fine_world with_place fine_place].
    unfold fine_of, with_place, with_fine_world. simpl. f_equal. f_equal.
    apply with_cache_ext. apply prune_all_lookup.
  - apply NoDup_fst_map_to_list.
  - intros k p Hkp. by apply elem_of_map_to_list.
Qed.

Lemma deletes_unfold keys w :
  deletes keys w =
    Ok tt (with_cache (λ m, foldl (prune_step (λ _, true)) m keys) w).
Proof.
  revert w. induction keys as [|key keys IH]; intros w; simpl.
  - unfold ret. by rewrite with_cache_id.
  - unfold bind. rewrite Delete_unfold, IH, with_cache_compose.
    f_equal. apply with_cache_ext. simpl. f_equal.
    unfold prune_step. destruct (cache (self w) !! key) eqn:Hk; [done|].
    by apply delete_id.
Qed.

(** X14. [Clear] is the [Delete] of every key of the map, one after the
    other in the order of the traversal: run alone, the two leave the same
    state. *)
Theorem Clear_is_Deletes w :
  Clear w = deletes (map_to_list (cache (self w))).*1 w.
Proof.
  rewrite Clear_unfold, deletes_unfold. f_equal. apply with_cache_ext.
  rewrite prune_all_lookup. symmetry. apply map_eq. intros k.
  rewrite lookup_empty. apply map_lookup_filter_None. right.
  intros p _. simpl. discriminate.
Qed.

(** ** Reads *)

Lemma step_CallGet s key : inv s → step (CallGet key) s = Next s.
Proof.
  intros Hinv. destruct (Get_total _ key (inv_wf _ Hinv)) as [r Hr].
  simpl. rewrite (call_Ok _ _ _ _ Hr). by destruct s.
Qed.

(** X3. [Get] only reads: the calls of [Get] can be taken out of a run, and
    the run ends as it did, in the same state, the same panic, or at the same
    event that cannot happen.  In particular a [Get] does not renew the entry
    it reads. *)
Theorem Get_is_unobservable es s :
  inv s → run es s = run (without is_get es) s.
Proof.
  revert s. induction es as [|e es IH]; intros s Hinv; [done|].
  destruct (is_get e) eqn:Hg.
  - destruct e; try discriminate. simpl without.
    change (run (CallGet key :: es) s)
      with (match step (CallGet key) s with
            | Next s' => run es s'
            | o => o
            end).
    rewrite step_CallGet by done. by apply IH.
  - cbn [without]. rewrite Hg. cbn [run].
    destruct (step e s) as [s1| |] eqn:Hstep; try done.
    apply IH. by apply (step_inv s e).
Qed.

(** ** The goroutine *)

(** The branch a step took, as in the proofs above. *)
Ltac step_branch Hstep :=
  unfold step, startCleanupRoutine, NewTicker, call in Hstep;
  repeat match type of Hstep with
    | context [match ?x with _ => _ end] =>
        destruct x eqn:?; try discriminate Hstep
    end;
  inversion Hstep; subst; clear Hstep.

Lemma step_pending s e s' :
  step e s = Next s' →
  ((if is_cleanup e then 1 else 0) + pending s'
   ≤ (if is_timer e then 1 else 0) + pending s)%nat.
Proof.
  intros Hstep. unfold pending.
  destruct e; simpl in Hstep.
  1-4: unfold call in Hstep;
       match type of Hstep with context [match ?x with _ => _ end] =>
         destruct x; [|discriminate] end;
       inversion Hstep; subst; simpl; lia.
  - unfold call in Hstep.
    destruct (StopCleanup (world s)) as [a w|]; [|discriminate].
    inversion Hstep; subst. unfold wake_on_close. simpl.
    destruct (sweeper s) eqn:Hg; simpl; rewrite ?Hg;
      repeat case_decide; try congruence; lia.
  - inversion Hstep; subst. unfold fire.
    destruct (sweeper s) eqn:Hg; simpl; rewrite ?Hg;
      repeat case_decide; try congruence; destruct (tickerC s); simpl; lia.
  - unfold startCleanupRoutine, NewTicker in Hstep.
    destruct (sweeper s) eqn:Hg; try discriminate.
    destruct (ttl (self (world s)) <=? 0); try discriminate.
    inversion Hstep; subst. simpl.
    repeat case_decide; try congruence; destruct (tickerC s); simpl; lia.
  - unfold startCleanupRoutine in Hstep.
    destruct (sweeper s) eqn:Hg; try discriminate.
    destruct (tickerC s) eqn:Ht; try discriminate.
    inversion Hstep; subst. simpl.
    repeat case_decide; try congruence; lia.
  - unfold startCleanupRoutine in Hstep.
    destruct (sweeper s) eqn:Hg; try discriminate.
    case_decide; try discriminate.
    inversion Hstep; subst. simpl.
    repeat case_decide; try congruence; lia.
  - unfold startCleanupRoutine in Hstep.
    destruct (sweeper s) eqn:Hg; try discriminate.
    destruct (tickerC s) eqn:Ht; try discriminate.
    case_decide; try discriminate.
    inversion Hstep; subst. simpl. rewrite Ht.
    repeat case_decide; try congruence; lia.
  - unfold startCleanupRoutine, call in Hstep.
    destruct (sweeper s) eqn:Hg; try discriminate.
    match type of Hstep with context [match ?x with _ => _ end] =>
         destruct x; [|discriminate] end.
    inversion Hstep; subst. simpl.
    repeat case_decide; try congruence; lia.
Qed.

Lemma run_pending es s s' :
  run es s = Next s' →
  (count is_cleanup es + pending s' ≤ count is_timer es + pending s)%nat.
Proof.
  revert s. induction es as [|e es IH]; intros s Hrun; simpl in Hrun.
  - inversion Hrun; subst. simpl. lia.
  - destruct (step e s) as [s1| |] eqn:Hstep; try discriminate.
    pose proof (step_pending _ _ _ Hstep). pose proof (IH _ Hrun).
    simpl. lia.
Qed.

(** X7. The sweeper makes at most one pass per tick: in any run from
    [NewCache] the passes are no more than the firings of the ticker's timer
    (a tick that finds one waiting in [ticker.C] is dropped). *)
Theorem passes_at_most_ticks d es s :
  run es (NewCache d) = Next s →
  (count is_cleanup es ≤ count is_timer es)%nat.
Proof.
  intros Hrun. pose proof (run_pending _ _ _ Hrun) as Hle.
  unfold pending in Hle at 2. simpl in Hle. lia.
Qed.

Lemma step_to_stopped s e s' :
  step e s = Next s' → sweeper s' = Stopped →
  is_stop e = true ∨ sweeper s = Stopped
  ∨ stopCleanup (self (world s)) = chan_closed.
Proof.
  intros Hstep Hs.
  destruct e; step_branch Hstep; simpl in *; try discriminate; auto.
  unfold fire in Hs. destruct (sweeper s) eqn:Hg; simpl in Hs;
    try discriminate; try congruence; auto.
Qed.

Lemma run_stopped_closed es s s' :
  inv s →
  (sweeper s = Stopped → stopCleanup (self (world s)) = chan_closed) →
  run es s = Next s' →
  sweeper s' = Stopped → stopCleanup (self (world s')) = chan_closed.
Proof.
  revert s. induction es as [|e es IH]; intros s Hinv Hc Hrun;
    simpl in Hrun.
  - inversion Hrun; by subst.
  - destruct (step e s) as [s1| |] eqn:Hstep; try discriminate.
    apply (IH s1); [by apply (step_inv s e)| |done].
    intros Hs1. rewrite (step_world _ _ _ Hinv Hstep), chan_world_after.
    destruct (is_stop e) eqn:He; [done|].
    destruct (step_to_stopped _ _ _ Hstep Hs1) as [?|[?|?]];
      [congruence|by apply Hc|done].
Qed.

(** X8. The goroutine returns for one reason only: in any run from
    [NewCache], if the goroutine has returned, [StopCleanup] was called. *)
Theorem sweeper_stops_only_on_StopCleanup d es s :
  run es (NewCache d) = Next s →
  sweeper s = Stopped →
  existsb is_stop es = true.
Proof.
  intros Hrun Hs.
  pose proof (run_stopped_closed _ _ _ (inv_NewCache d)
                ltac:(discriminate) Hrun Hs) as Hc.
  rewrite (run_chan _ _ _ (inv_NewCache d) Hrun) in Hc.
  by destruct (existsb is_stop es).
Qed.

Lemma step_spawned s e s' :
  step e s = Next s' → sweeper s = Spawned → ttl (self (world s)) <= 0 →
  sweeper s' = Spawned ∧ is_cleanup e = false.
Proof.
  intros Hstep Hs Hd. destruct e.
  7: { simpl in Hstep. unfold startCleanupRoutine, NewTicker in Hstep.
       rewrite Hs in Hstep.
       destruct (Z.leb_spec (ttl (self (world s))) 0); [discriminate|lia]. }
  all: step_branch Hstep; simpl in *; try done; try congruence.
  - destruct (StopCleanup (world s)) as [a w|]; [|discriminate].
    inversion Heqo; subst. unfold wake_on_close. simpl. by rewrite Hs.
  - unfold fire. by rewrite Hs.
Qed.

(** X9. With a TTL that is not positive nothing is ever swept: in any run
    from [NewCache] that goes on without a panic, the goroutine has not got
    past [NewTicker], and no pass was made. *)
Theorem no_pass_without_positive_ttl d es s :
  d <= 0 →
  run es (NewCache d) = Next s →
  sweeper s = Spawned ∧ count is_cleanup es = 0%nat.
Proof.
  intros Hd.
  assert (∀ s0 : System, inv s0 → sweeper s0 = Spawned →
            ttl (self (world s0)) <= 0 → run es s0 = Next s →
            sweeper s = Spawned ∧ count is_cleanup es = 0%nat) as Hgen.
  { induction es as [|e es IH]; intros s0 Hinv Hs Ht Hrun; simpl in Hrun.
    - inversion Hrun; by subst.
    - destruct (step e s0) as [s1| |] eqn:Hstep; try discriminate.
      destruct (step_spawned _ _ _ Hstep Hs Ht) as [Hs1 He].
      destruct (IH s1) as [Hs' Hn]; try done.
      + by apply (step_inv s0 e).
      + by rewrite (step_world _ _ _ Hinv Hstep), ttl_world_after.
      + split; [done|]. simpl. by rewrite He, Hn. }
  apply Hgen; [apply inv_NewCache|done|done].
Qed.

(** X10. The TTL is fixed at construction: whatever happens after
    [NewCache(ttl)], the cache has the TTL it was made with. *)
Theorem ttl_never_changes d es s :
  run es (NewCache d) = Next s → ttl (self (world s)) = d.
Proof.
  intros Hrun. by rewrite (run_ttl _ _ _ (inv_NewCache d) Hrun).
Qed.

(** ** Writers side by side *)

Lemma track_no_removal key d es (st : option (V * Time)) :
  existsb removes es = false →
  answer (foldl (track key d) st es) =
    match last_write key es with
    | Some value => (value, true)
    | None => answer st
    end.
Proof.
  revert st. induction es as [|e es IH]; intros st; simpl; [done|].
  intros [He Hes]%orb_false_iff. rewrite IH by done.
  destruct (last_write key es) as [v|]; [done|].
  destruct e; simpl in *; try done. by case_bool_decide.
Qed.

(** X11. No write is lost and the last writer wins: after any interleaving
    of calls of [Set] and [Get] by any number of callers, with the goroutine
    ticking along but no [Delete], no [Clear] and no pass in between, [Get]
    finds every key that was written, with the value of the last [Set] of
    that key, and finds no other key. *)
Theorem last_writer_wins d es s key :
  run es (NewCache d) = Next s →
  existsb removes es = false →
  lookup_result key s =
    Some (match last_write key es with
          | Some value => (value, true)
          | None => (zero, false)
          end).
Proof.
  intros Hrun Hkeep.
  pose proof (run_inv _ _ _ (inv_NewCache d) Hrun) as Hinv.
  rewrite lookup_result_entry by by apply inv_wf.
  rewrite (run_entry _ _ _ key (inv_NewCache d) Hrun). simpl.
  by rewrite track_no_removal.
Qed.

End further.

(** * Scenarios *)

Section scenarios.

Local Open Scope string_scope.

Local Abbreviation System := (@System Z _ _ string).
Local Abbreviation event := (@event Z string).

(** [TestCacheSetAndGet] *)
Example test_set_and_get :
  let s := after [CallSet 1 "test1" 0] Minute in
  lookup_result 1 s = Some ("test1", true)
  ∧ lookup_result 2 s = Some ("", false).
Proof. vm_compute. done. Qed.

(** [TestCacheDelete] *)
Example test_delete :
  lookup_result 1 (after [CallSet 1 "test1" 0; CallDelete 1] Minute)
    = Some ("", false).
Proof. vm_compute. done. Qed.

(** [TestCacheClear] *)
Example test_clear :
  let s := after [CallSet 1 "test1" 0; CallSet 2 "test2" 1; CallClear]
             Minute in
  lookup_result 1 s = Some ("", false)
  ∧ lookup_result 2 s = Some ("", false).
Proof. vm_compute. done. Qed.

(** [TestCacheTTLExpiration]: the entry written at 1 ms is gone after the
    pass of the second tick, at 101 ms. *)
Example test_ttl_expiration :
  lookup_result 1
    (after [SwStart; SwPark; CallSet 1 "test1" (1 * Millisecond);
            Timer; SwCleanup (51 * Millisecond); SwPark;
            Timer; SwCleanup (101 * Millisecond)]
       (50 * Millisecond))
    = Some ("", false).
Proof. vm_compute. done. Qed.

(** [TestCacheStopCleanup] *)
Example test_stop_cleanup :
  let s := after [SwStart; SwPark; CallSet 1 "test1" (1 * Millisecond);
                  CallStopCleanup; Timer; Timer]
             (50 * Millisecond) in
  lookup_result 1 s = Some ("test1", true) ∧ sweeper s = Stopped.
Proof. vm_compute. done. Qed.

(** A state reached from [NewCache] is a good state. *)
Ltac reached es d :=
  apply (run_inv es (NewCache d));
  [apply inv_NewCache | vm_compute; reflexivity].

Lemma Get_no_ttl_check_witness :
  let w := world (after [CallSet 1 "a" (10 * Millisecond)]
                    (50 * Millisecond)) in
  ∃ it, heap w !! 0%nat = Some it
    ∧ Get 1 w = Ok (Value it, true) w
    ∧ ∀ d t, Get 1 (retimed d t w) = Ok (Value it, true) (retimed d t w).
Proof.
  apply (Get_no_ttl_check _ 1 0%nat).
  - apply inv_wf.
    reached [CallSet 1 "a" (10 * Millisecond) : event] (50 * Millisecond).
  - vm_compute. reflexivity.
Defined.

Lemma Set_then_Get_witness :
  let s := after [CallSet 2 "b" 0; SwStart; SwPark] (50 * Millisecond) in
  ∃ s1, step (CallSet 1 "test1" (1 * Millisecond)) s = Next s1
    ∧ lookup_result 1 s1 = Some ("test1", true)
    ∧ ∀ es s2,
        forallb (spares 1 (ttl (self (world s))) (1 * Millisecond)) es = true →
        run es s1 = Next s2 →
        lookup_result 1 s2 = Some ("test1", true).
Proof.
  apply (Set_then_Get _ 1 "test1" (1 * Millisecond)).
  reached [CallSet 2 "b" 0; SwStart; SwPark : event] (50 * Millisecond).
Defined.

(** An entry written 50 ms before the pass, another written 60 ms before it,
    under a TTL of 50 ms. *)
Lemma cleanup_boundary_strict_witness :
  let w := world (after [CallSet 1 "a" (10 * Millisecond); CallSet 2 "b" 0]
                    (50 * Millisecond)) in
  ∃ w', cleanup (60 * Millisecond) w = Ok tt w'
    ∧ ∀ key p it, holds w key p it →
        (Sub (60 * Millisecond) (CreatedTime it) = ttl (self w) →
         holds w' key p it)
        ∧ (cache (self w') !! key = None
           ↔ ttl (self w) < Sub (60 * Millisecond) (CreatedTime it)).
Proof.
  apply (cleanup_boundary_strict (60 * Millisecond)).
  apply inv_wf.
  reached [CallSet 1 "a" (10 * Millisecond); CallSet 2 "b" 0 : event]
    (50 * Millisecond).
Defined.

(** Under a TTL of 50 ms, at the reading 60 ms: key 1 is 30 ms old, key 2
    is 60 ms old and key 3 is 55 ms old. *)
Lemma cleanup_frame_witness :
  let w := world (after [CallSet 1 "a" (30 * Millisecond); CallSet 2 "b" 0;
                         CallSet 3 "c" (5 * Millisecond)]
                    (50 * Millisecond)) in
  let now := 60 * Millisecond in
  ∃ w', cleanup now w = Ok tt w'
    ∧ heap w' = heap w
    ∧ ttl (self w') = ttl (self w)
    ∧ stopCleanup (self w') = stopCleanup (self w)
    ∧ (∀ key p it, holds w key p it →
         ttl (self w) < Sub now (CreatedTime it) →
         cache (self w') !! key = None)
    ∧ (∀ key p it, holds w key p it →
         Sub now (CreatedTime it) <= ttl (self w) →
         holds w' key p it)
    ∧ (∀ key, cache (self w) !! key = None →
         cache (self w') !! key = None)
    ∧ (∀ key p, cache (self w') !! key = Some p →
         cache (self w) !! key = Some p).
Proof.
  apply (cleanup_frame (60 * Millisecond)).
  apply inv_wf.
  reached [CallSet 1 "a" (30 * Millisecond); CallSet 2 "b" 0;
           CallSet 3 "c" (5 * Millisecond) : event] (50 * Millisecond).
Defined.

Lemma StopCleanup_twice_panics_witness :
  let s1 := after [SwStart; SwPark; CallSet 1 "test1" (1 * Millisecond)]
              (50 * Millisecond) in
  ∃ s2, step CallStopCleanup s1 = Next s2
    ∧ stopCleanup (self (world s2)) = chan_closed
    ∧ (sweeper s1 = Parked → sweeper s2 = Stopped)
    ∧ ∀ es2 s3, run es2 s2 = Next s3 →
        step CallStopCleanup s3 = Crash "close of closed channel".
Proof.
  apply (StopCleanup_twice_panics (50 * Millisecond)
           [SwStart; SwPark; CallSet 1 "test1" (1 * Millisecond)]).
  - vm_compute. reflexivity.
  - vm_compute. reflexivity.
Defined.

Lemma stop_while_parked_keeps_entries_witness :
  let s1 := after [SwStart; SwPark; CallSet 1 "test1" (1 * Millisecond)]
              (50 * Millisecond) in
  ∃ s2, step CallStopCleanup s1 = Next s2
    ∧ sweeper s2 = Stopped
    ∧ ∀ es s3,
        run es s2 = Next s3 →
        forallb (λ e, negb (disturbs 1 e)) es = true →
        sweeper s3 = Stopped
        ∧ existsb is_cleanup es = false
        ∧ lookup_result 1 s3 = Some ("test1", true).
Proof.
  apply (stop_while_parked_keeps_entries _ 1 0%nat
           {| Value := "test1"; CreatedTime := 1 * Millisecond |}).
  - reached [SwStart; SwPark; CallSet 1 "test1" (1 * Millisecond) : event]
      (50 * Millisecond).
  - vm_compute. reflexivity.
  - split; vm_compute; reflexivity.
Defined.

Lemma Clear_empties_witness :
  let w := world (after [CallSet 1 "test1" 0; CallSet 2 "test2" 1] Minute) in
  ∃ w', Clear w = Ok tt w'
    ∧ cache (self w') = ∅
    ∧ ∀ key, Get key w' = Ok (zero, false) w'.
Proof.
  apply (Clear_empties
           (world (after [CallSet 1 "test1" 0; CallSet 2 "test2" 1] Minute))).
Defined.

Lemma Delete_then_Get_witness :
  let w := world (after [CallSet 1 "test1" 0] Minute) in
  ∃ w', Delete 2 w = Ok tt w'
    ∧ Get 2 w' = Ok (zero, false) w'
    ∧ (∀ k, k ≠ 2 → cache (self w') !! k = cache (self w) !! k)
    ∧ heap w' = heap w
    ∧ (cache (self w) !! 2 = None → w' = w).
Proof.
  apply (Delete_then_Get (world (after [CallSet 1 "test1" 0] Minute)) 2).
Defined.

Lemma Set_installs_fresh_item_witness :
  let w := world (after [CallSet 1 "old" 0] Minute) in
  ∃ w', Set_ 1 "new" (5 * Millisecond) w = Ok tt w'
    ∧ heap w !! length (heap w) = None
    ∧ heap w' =
        (heap w ++ [{| Value := "new"; CreatedTime := 5 * Millisecond |}])%list
    ∧ holds w' 1 (length (heap w))
        {| Value := "new"; CreatedTime := 5 * Millisecond |}
    ∧ (∀ q it, heap w !! q = Some it → heap w' !! q = Some it)
    ∧ (∀ k, k ≠ 1 → cache (self w') !! k = cache (self w) !! k)
    ∧ ttl (self w') = ttl (self w)
    ∧ stopCleanup (self w') = stopCleanup (self w).
Proof.
  apply (Set_installs_fresh_item (world (after [CallSet 1 "old" 0] Minute))
           1 "new" (5 * Millisecond)).
Defined.

(** A TTL of zero and a negative one: the cache is made all the same, and it
    is the goroutine that panics. *)
Lemma NewCache_accepts_any_ttl_witness :
  (ttl (self (world (NewCache 0 : System))) = 0
   ∧ step SwStart (NewCache 0 : System)
       = Crash "non-positive interval for NewTicker")
  ∧ (ttl (self (world (NewCache (-5) : System))) = -5
     ∧ step SwStart (NewCache (-5) : System)
         = Crash "non-positive interval for NewTicker").
Proof.
  split.
  - split.
    + apply (NewCache_accepts_any_ttl (K := Z) (V := string) 0).
    + apply (NewCache_accepts_any_ttl (K := Z) (V := string) 0). lia.
  - split.
    + apply (NewCache_accepts_any_ttl (K := Z) (V := string) (-5)).
    + apply (NewCache_accepts_any_ttl (K := Z) (V := string) (-5)). lia.
Defined.

(** C6, as stated, fails.  The cache is made with a TTL of 50 ms and key 1 is
    written at 1 ms.  The goroutine creates its ticker and blocks in the
    [select]; the first tick wakes it up with the case [<-ticker.C].  Before it
    runs, [StopCleanup] is called: no pass has evicted the entry, which [Get]
    still finds.  The goroutine then runs the pass it was woken up for, at
    53 ms, and the entry is gone. *)
Lemma StopCleanup_then_pending_pass_evicts :
  ∃ s1 s2 s3 : System,
    run [CallSet 1 "a" (1 * Millisecond); SwStart; SwPark; Timer]
      (NewCache (50 * Millisecond)) = Next s1
    ∧ lookup_result 1 s1 = Some ("a", true)
    ∧ step CallStopCleanup s1 = Next s2
    ∧ step (SwCleanup (53 * Millisecond)) s2 = Next s3
    ∧ forallb (λ e : event, negb (disturbs 1 e))
        [SwCleanup (53 * Millisecond)] = true
    ∧ lookup_result 1 s3 = Some ("", false).
Proof.
  exists (after [CallSet 1 "a" (1 * Millisecond); SwStart; SwPark; Timer]
            (50 * Millisecond)).
  exists (after [CallSet 1 "a" (1 * Millisecond); SwStart; SwPark; Timer;
                 CallStopCleanup] (50 * Millisecond)).
  exists (after [CallSet 1 "a" (1 * Millisecond); SwStart; SwPark; Timer;
                 CallStopCleanup; SwCleanup (53 * Millisecond)]
            (50 * Millisecond)).
  vm_compute. repeat split.
Qed.

(** ** The further properties, on the cache of the tests *)

Lemma Get_never_written_witness :
  lookup_result 2
    (after [CallSet 1 "test1" 0; SwStart; SwPark; Timer; CallDelete 2]
       Minute)
    = Some (zero, false).
Proof.
  apply (Get_never_written Minute
           [CallSet 1 "test1" 0; SwStart; SwPark; Timer; CallDelete 2]).
  - vm_compute. reflexivity.
  - vm_compute. reflexivity.
Defined.


(** What the run above ends in: key 1 is gone although it was written at
    the very reading of the pass, key 2 holds its second value. *)
Example key_history_of_a_race :
  let fes : list (@fine_event Z string) :=
    [Whole SwStart; Whole SwPark; Whole (CallSet 1 "a" (1 * Millisecond));
     Whole (CallSet 2 "x" (2 * Millisecond)); Whole Timer;
     PassBegin (53 * Millisecond); PassVisit 1;
     Whole (CallSet 1 "b" (53 * Millisecond)); PassDel;
     PassVisit 2; PassDel; PassEnd;
     Whole (CallSet 2 "y" (60 * Millisecond))] in
  lookup_result 1 (seen (fine_after fes (50 * Millisecond)))
    = Some ("", false)
  ∧ lookup_result 2 (seen (fine_after fes (50 * Millisecond)))
    = Some ("y", true).
Proof. vm_compute. done. Qed.

Lemma Set_inside_pass_is_lost_witness :
  let f := fine_after
             [Whole (CallSet 1 "a" (1 * Millisecond)); Whole SwStart;
              Whole SwPark; Whole Timer; PassBegin (53 * Millisecond);
              PassVisit 1] (50 * Millisecond) in
  ∃ f1 f2,
    fine_step (Whole (CallSet 1 "b" (53 * Millisecond))) f = FineNext f1
    ∧ lookup_result 1 (seen f1) = Some ("b", true)
    ∧ fine_step PassDel f1 = FineNext f2
    ∧ fine_place f2 = Sweeping (53 * Millisecond)
    ∧ lookup_result 1 (seen f2) = Some (zero, false).
Proof.
  apply (Set_inside_pass_is_lost _ (53 * Millisecond) 1 "b"
           (53 * Millisecond)).
  vm_compute. reflexivity.
Defined.

Lemma pass_alone_is_cleanup_witness :
  let s := after [CallSet 1 "a" 0; CallSet 2 "b" (20 * Millisecond);
                  SwStart; SwPark; Timer] (50 * Millisecond) in
  ∃ s', step (SwCleanup (60 * Millisecond)) s = Next s'
    ∧ fine_run (pass_alone (60 * Millisecond) (world s)) (fine_of s)
      = FineNext (fine_of s').
Proof.
  apply (pass_alone_is_cleanup _ (60 * Millisecond)).
  - reached [CallSet 1 "a" 0; CallSet 2 "b" (20 * Millisecond);
             SwStart; SwPark; Timer : event] (50 * Millisecond).
  - vm_compute. reflexivity.
Defined.

Lemma Get_is_unobservable_witness :
  let s := after [CallSet 1 "test1" 0; SwStart; SwPark] Minute in
  let es : list event :=
    [CallGet 1; CallSet 2 "b" 1; CallGet 2; CallGet 3; CallDelete 1;
     CallGet 1; CallStopCleanup; CallGet 2; CallStopCleanup] in
  run es s = run (without is_get es) s.
Proof.
  apply Get_is_unobservable.
  reached [CallSet 1 "test1" 0; SwStart; SwPark : event] Minute.
Defined.

Lemma cleanup_twice_witness :
  let w := world (after [CallSet 1 "a" 0; CallSet 2 "b" (20 * Millisecond);
                         CallSet 3 "c" (40 * Millisecond)]
                    (50 * Millisecond)) in
  (cleanup (60 * Millisecond) ;; cleanup (80 * Millisecond))%go w
    = cleanup (80 * Millisecond) w.
Proof.
  apply (cleanup_twice (60 * Millisecond) (80 * Millisecond)).
  - apply inv_wf.
    reached [CallSet 1 "a" 0; CallSet 2 "b" (20 * Millisecond);
             CallSet 3 "c" (40 * Millisecond) : event] (50 * Millisecond).
  - vm_compute. discriminate.
Defined.

Lemma cleanup_nothing_expired_witness :
  let w := world (after [CallSet 1 "a" (10 * Millisecond);
                         CallSet 2 "b" (20 * Millisecond)]
                    (50 * Millisecond)) in
  cleanup (60 * Millisecond) w = Ok tt w.
Proof.
  apply (cleanup_nothing_expired (60 * Millisecond)).
  - apply inv_wf.
    reached [CallSet 1 "a" (10 * Millisecond);
             CallSet 2 "b" (20 * Millisecond) : event] (50 * Millisecond).
  - intros key p it [Hk Hp].
    destruct p as [|[|p]]; vm_compute in Hp; try discriminate;
      injection Hp as <-; vm_compute; discriminate.
Defined.

Lemma cleanup_max_ttl_witness :
  let w := world (after [CallSet 1 "a" 0] maxDuration) in
  cleanup (2 ^ 70) w = Ok tt w.
Proof.
  apply (cleanup_max_ttl (2 ^ 70)).
  - apply inv_wf. reached [CallSet 1 "a" 0 : event] maxDuration.
  - vm_compute. discriminate.
Defined.

Lemma passes_at_most_ticks_witness :
  let es : list event :=
    [SwStart; SwPark; Timer; Timer; Timer; SwCleanup (51 * Millisecond);
     SwSelectTick; SwCleanup (52 * Millisecond); SwPark] in
  (count is_cleanup es ≤ count is_timer es)%nat.
Proof.
  apply (passes_at_most_ticks (K := Z) (V := string) (50 * Millisecond) _
           (after [SwStart; SwPark; Timer; Timer; Timer;
                   SwCleanup (51 * Millisecond); SwSelectTick;
                   SwCleanup (52 * Millisecond); SwPark]
              (50 * Millisecond))).
  vm_compute. reflexivity.
Defined.

Lemma sweeper_stops_only_on_StopCleanup_witness :
  existsb is_stop
    [SwStart; Timer; CallStopCleanup; SwSelectTick; SwCleanup 7;
     SwSelectStop : event] = true.
Proof.
  apply (sweeper_stops_only_on_StopCleanup (50 * Millisecond) _
           (after [SwStart; Timer; CallStopCleanup; SwSelectTick;
                   SwCleanup 7; SwSelectStop] (50 * Millisecond))).
  - vm_compute. reflexivity.
  - vm_compute. reflexivity.
Defined.

Lemma no_pass_without_positive_ttl_witness :
  let es : list event :=
    [CallSet 1 "a" 0; Timer; CallStopCleanup; Timer; CallGet 1] in
  sweeper (after es 0) = Spawned ∧ count is_cleanup es = 0%nat.
Proof.
  apply (no_pass_without_positive_ttl 0).
  - lia.
  - vm_compute. reflexivity.
Defined.

Lemma ttl_never_changes_witness :
  ttl (self (world (after [CallSet 1 "a" 0; SwStart; SwPark; CallClear;
                           CallStopCleanup; Timer] (50 * Millisecond))))
    = 50 * Millisecond.
Proof.
  apply (ttl_never_changes (50 * Millisecond)
           [CallSet 1 "a" 0; SwStart; SwPark; CallClear; CallStopCleanup;
            Timer]).
  vm_compute. reflexivity.
Defined.

(** Two writers, one of keys 1 and 3, the other of keys 2 and 3, and a
    reader, interleaved. *)
Lemma last_writer_wins_witness :
  let es : list event :=
    [CallSet 1 "value" 0; CallSet 2 "value" 0; SwStart; CallGet 1;
     CallSet 3 "first" 1; SwPark; CallSet 3 "second" 2; Timer; CallGet 4] in
  lookup_result 3 (after es Minute)
    = Some (match last_write 3 es with
            | Some value => (value, true)
            | None => (zero, false)
            end).
Proof.
  apply (last_writer_wins Minute).
  - vm_compute. reflexivity.
  - vm_compute. reflexivity.
Defined.

End scenarios.
